(** * format_html.py: the span reflower

    A shallow embedding of [scripts/format_html.py].  The script rewrites
    every match of one regular expression with a callback; the embedding
    therefore consists of

    - Python strings as lists of characters, with the character classes the
      regular expression and [str.lower] / [str.strip] consult;
    - a small backtracking matcher over the opcodes the [re] module compiles
      the two patterns of the script to, and [re.sub] over it;
    - the callback [repl], [transform], [process_file] and [main].

    Characters are Rocq's 8-bit [ascii], read as the code points U+0000 to
    U+00FF; the classes below are Python's classes on that range. *)

From Stdlib Require Import String Ascii List Bool Arith Lia.
Import ListNotations.

(* ------------------------------------------------------------------ *)
(** ** Python strings *)

Definition pystr := list ascii.

Definition str (s : string) : pystr := list_ascii_of_string s.

Definition ord (c : ascii) : nat := nat_of_ascii c.

Definition between (lo hi : nat) (c : ascii) : bool :=
  (lo <=? ord c) && (ord c <=? hi).

(** [str.isspace] on one character, which is also the class [\s] of a
    [str] pattern: TAB..CR, FS..US, space, NEL and NBSP. *)
Definition isspace (c : ascii) : bool :=
  between 9 13 c || between 28 32 c || (ord c =? 133) || (ord c =? 160).

Definition isalpha (c : ascii) : bool :=
  between 65 90 c || between 97 122 c
  || (ord c =? 170) || (ord c =? 181) || (ord c =? 186)
  || between 192 214 c || between 216 246 c || between 248 255 c.

(** Decimal digits, the superscript digits and the vulgar fractions. *)
Definition isnumber (c : ascii) : bool :=
  between 48 57 c || between 178 179 c || (ord c =? 185) || between 188 190 c.

Definition isalnum (c : ascii) : bool := isalpha c || isnumber c.

(** The class [\w] of a [str] pattern. *)
Definition isword (c : ascii) : bool := isalnum c || (c =? "_")%char.

(** [str.lower] on the code points U+0000 to U+00FF, where it works
    character by character and keeps the length: A..Z and the upper-case
    letters of U+00C0..U+00DE move up by 32.  Beyond U+00FF [str.lower]
    is not of this form (U+0130 becomes two code points, and the lower case
    of U+03A3 depends on its neighbours); such text is outside the
    alphabet of this development. *)
Definition lower_char (c : ascii) : ascii :=
  if between 65 90 c || between 192 214 c || between 216 222 c
  then ascii_of_nat (ord c + 32) else c.

Definition lower (s : pystr) : pystr := map lower_char s.

Fixpoint pystr_eqb (s t : pystr) : bool :=
  match s, t with
  | [], [] => true
  | x :: s', y :: t' => (x =? y)%char && pystr_eqb s' t'
  | _, _ => false
  end.

Fixpoint lstrip (s : pystr) : pystr :=
  match s with
  | c :: s' => if isspace c then lstrip s' else s
  | [] => []
  end.

Definition rstrip (s : pystr) : pystr := rev (lstrip (rev s)).

(** [s.strip()] *)
Definition strip (s : pystr) : pystr := rstrip (lstrip s).

(** The slice [s[a:b]]. *)
Definition substring (s : pystr) (a b : nat) : pystr :=
  firstn (b - a) (skipn a s).

(* ------------------------------------------------------------------ *)
(** ** The matcher

    The opcodes the two patterns compile to.  Every repeated item of the
    patterns is a single character set, so the repeat opcodes carry a set. *)

Inductive op : Type :=
| LITERAL (c : ascii)
| IN (set : ascii -> bool)
| MAX_REPEAT (set : ascii -> bool)
| MIN_REPEAT (set : ascii -> bool)
| AT_BOUNDARY
| MARK (k : nat)
| GROUPREF (n : nat).

(** The text before and after the cursor, and the marks set so far (the
    newest first).  Mark [2(n-1)] opens group [n], mark [2(n-1)+1] closes it. *)
Record state : Type := mkState {
  before : pystr;
  after : pystr;
  marks : list (nat * nat)
}.

Fixpoint find_mark (k : nat) (ms : list (nat * nat)) : option nat :=
  match ms with
  | (k', p) :: ms' => if k' =? k then Some p else find_mark k ms'
  | [] => None
  end.

Definition group_of (s : pystr) (ms : list (nat * nat)) (n : nat) : option pystr :=
  match find_mark (2 * (n - 1)) ms, find_mark (2 * (n - 1) + 1) ms with
  | Some a, Some b => Some (substring s a b)
  | _, _ => None
  end.

(** The alternatives of a greedy repeat, the longest first. *)
Fixpoint greedy (set : ascii -> bool) (b a : pystr) (ms : list (nat * nat))
  : list state :=
  match a with
  | c :: a' =>
      if set c then greedy set (b ++ [c]) a' ms ++ [mkState b a ms]
      else [mkState b a ms]
  | [] => [mkState b a ms]
  end.

(** The alternatives of a lazy repeat, the shortest first. *)
Fixpoint lazy (set : ascii -> bool) (b a : pystr) (ms : list (nat * nat))
  : list state :=
  mkState b a ms ::
  match a with
  | c :: a' => if set c then lazy set (b ++ [c]) a' ms else []
  | [] => []
  end.

Fixpoint strip_prefix (g a : pystr) : option pystr :=
  match g, a with
  | [], _ => Some a
  | x :: g', y :: a' => if (x =? y)%char then strip_prefix g' a' else None
  | _ :: _, [] => None
  end.

Definition word_at (o : option ascii) : bool :=
  match o with Some c => isword c | None => false end.

(** The states one opcode can continue in, in the order the matcher tries
    them. *)
Definition step (o : op) (st : state) : list state :=
  match o with
  | LITERAL c =>
      match after st with
      | x :: a' =>
          if (x =? c)%char then [mkState (before st ++ [x]) a' (marks st)] else []
      | [] => []
      end
  | IN set =>
      match after st with
      | x :: a' =>
          if set x then [mkState (before st ++ [x]) a' (marks st)] else []
      | [] => []
      end
  | MAX_REPEAT set => greedy set (before st) (after st) (marks st)
  | MIN_REPEAT set => lazy set (before st) (after st) (marks st)
  | AT_BOUNDARY =>
      if xorb (word_at (last (map Some (before st)) None))
              (word_at (hd_error (after st)))
      then [st] else []
  | MARK k =>
      [mkState (before st) (after st) ((k, length (before st)) :: marks st)]
  | GROUPREF n =>
      match group_of (before st ++ after st) (marks st) n with
      | Some g =>
          match strip_prefix g (after st) with
          | Some a' => [mkState (before st ++ g) a' (marks st)]
          | None => []
          end
      | None => []
      end
  end.

Fixpoint first_some {A B : Type} (f : A -> option B) (l : list A) : option B :=
  match l with
  | x :: l' => match f x with Some r => Some r | None => first_some f l' end
  | [] => None
  end.

(** Depth-first search with backtracking: the first alternative of each
    opcode whose continuation succeeds. *)
Fixpoint exec (prog : list op) (st : state) : option state :=
  match prog with
  | [] => Some st
  | o :: k => first_some (exec k) (step o st)
  end.

(** A match object: the searched string, the span of the match and the
    marks. *)
Record Match : Type := mkMatch {
  m_string : pystr;
  m_start : nat;
  m_end : nat;
  m_marks : list (nat * nat)
}.

(** [m.group(n)]; a group that took no part in the match is [None]. *)
Definition group (m : Match) (n : nat) : option pystr :=
  match n with
  | 0 => Some (substring (m_string m) (m_start m) (m_end m))
  | _ => group_of (m_string m) (m_marks m) n
  end.

Definition match_of (b : pystr) (st' : state) : Match :=
  mkMatch (before st' ++ after st') (length b) (length (before st')) (marks st').

(** [re.sub] with a callback: scan from the left, replace each match and
    resume at its end; a position where nothing matches is copied.  The
    callback may raise, which is [None]; the loop counter [fuel] bounds the
    number of scan positions. Both patterns of the script start with an
    opcode that consumes a character, so an empty match never occurs; the
    branch for it copies one character and moves on. *)
Fixpoint sub_loop (fuel : nat) (prog : list op) (repl : Match -> option pystr)
    (b a : pystr) : option pystr :=
  match fuel with
  | 0 => None
  | S fuel' =>
      match exec prog (mkState b a []) with
      | Some st' =>
          match repl (match_of b st') with
          | None => None
          | Some r =>
              if length (before st') =? length b then
                match a with
                | [] => Some r
                | c :: a' =>
                    option_map (fun tl => r ++ c :: tl)
                               (sub_loop fuel' prog repl (b ++ [c]) a')
                end
              else
                option_map (app r)
                           (sub_loop fuel' prog repl (before st') (after st'))
          end
      | None =>
          match a with
          | [] => Some []
          | c :: a' =>
              option_map (cons c) (sub_loop fuel' prog repl (b ++ [c]) a')
          end
      end
  end.

Definition sub (prog : list op) (repl : Match -> option pystr) (s : pystr)
  : option pystr :=
  sub_loop (S (length s)) prog repl [] s.

(* ------------------------------------------------------------------ *)
(** ** The script *)

Definition INDENT : pystr := str "  ".
Definition COLLAPSE_WHITESPACE : bool := true.
Definition TRIM_TEXT : bool := true.

Definition VOID : list string :=
  ["area"; "base"; "br"; "col"; "embed"; "hr"; "img"; "input";
   "link"; "meta"; "param"; "source"; "track"; "wbr"]%string.

Definition EXCLUDED : list string :=
  ["script"; "style"; "pre"; "textarea"; "template"; "svg"; "math";
   "noscript"; "code"]%string.

(** [tag in set] *)
Definition mem (tag : pystr) (set : list string) : bool :=
  existsb (fun s => pystr_eqb tag (str s)) set.

Definition in_range (lo hi : ascii) (c : ascii) : bool :=
  between (ord lo) (ord hi) c.

Definition set_az (c : ascii) : bool := in_range "A" "Z" c || in_range "a" "z" c.
Definition set_tag (c : ascii) : bool :=
  isword c || (c =? ":")%char || (c =? "-")%char.
Definition set_not (x : ascii) (c : ascii) : bool := negb (c =? x)%char.

(** The compiled pattern, opcode by opcode.  Written with a blank between
    its items the source pattern is

      <  ( [A-Za-z] [\w:-]* )  \b  ( [^>]* )  >  \s*  ( [^<] [^<]*? )  \s*  </  \1  >

    The flags [re.S] and [re.M] change the dot and the anchors only, which
    the pattern does not use. *)
Definition pattern : list op :=
  [ LITERAL "<";
    MARK 0; IN set_az; MAX_REPEAT set_tag; MARK 1;
    AT_BOUNDARY;
    MARK 2; MAX_REPEAT (set_not ">"); MARK 3;
    LITERAL ">";
    MAX_REPEAT isspace;
    MARK 4; IN (set_not "<"); MIN_REPEAT (set_not "<"); MARK 5;
    MAX_REPEAT isspace;
    LITERAL "<"; LITERAL "/"; GROUPREF 1; LITERAL ">" ].

(** The pattern of the whitespace collapse: one or more [\s]. *)
Definition ws_plus : list op := [ IN isspace; MAX_REPEAT isspace ].

Definition nl : ascii := "010"%char.

(** The callback of [transform].  [m.group(1).lower()] raises when group 1
    is [None], and so does [re.sub] on an [inner] that is [None]. *)
Definition repl (m : Match) : option pystr :=
  match group m 1 with
  | None => None
  | Some g1 =>
      let tag := lower g1 in
      let attrs := match group m 2 with Some a => a | None => [] end in
      let inner := group m 3 in
      if mem tag VOID || mem tag EXCLUDED then group m 0
      else
        match inner with
        | None => None
        | Some text0 =>
            match (if COLLAPSE_WHITESPACE
                   then sub ws_plus (fun _ => Some (str " ")) text0
                   else Some text0) with
            | None => None
            | Some text1 =>
                let text := if TRIM_TEXT then strip text1 else text1 in
                match text with
                | [] => group m 0
                | _ :: _ =>
                    let open_tag := str "<" ++ tag ++ attrs ++ str ">" in
                    let close_tag := str "</" ++ tag ++ str ">" in
                    Some (open_tag ++ [nl] ++ INDENT ++ text ++ [nl] ++ close_tag)
                end
            end
        end
  end.

Definition transform (html : pystr) : option pystr := sub pattern repl html.

(* ------------------------------------------------------------------ *)
(** ** The command line

    [process_file] and [main] run against the file system; what [pathlib]
    does is a parameter of the section, and the transformation is the only
    part of the script that is computed here.  The script has no handler:
    an exception raised by [Path.glob], [Path.read_text] or
    [Path.write_text] goes up through [main] and ends the run. *)

Inductive outcome : Type :=
| Returned
| SysExit (code : nat)
| Uncaught.

(** The exit status of the interpreter for each way [main] can end. *)
Definition exit_status (o : outcome) : nat :=
  match o with
  | Returned => 0
  | SysExit code => code
  | Uncaught => 1
  end.

Definition usage : string :=
  "Usage: format_html.py <file-or-glob> [more files...]"%string.

(** What the interpreter prints for an exception nobody caught; the one
    line stands for the whole report. *)
Definition traceback : string := "Traceback (most recent call last):"%string.

Section Script.

Variable world : Type.
Variable path : Type.

(** How a call that touches the files ends: it returns, or it raises; the
    files are the ones it leaves in either case. *)
Inductive ran : Type :=
| Went (w : world)
| Threw (w : world).

Definition left_files (r : ran) : world :=
  match r with Went w => w | Threw w => w end.

(** The next call runs when the one before it returned. *)
Definition and_next (r : ran) (f : world -> ran) : ran :=
  match r with Went w => f w | Threw w => Threw w end.

(** [glob], [is_file] and [read_text] return [None] when the call raises:
    [Path.glob] does on an empty and on an absolute pattern, [is_file] on
    an error other than a missing file, [read_text] on a file it cannot
    open. *)
Variable glob : pystr -> world -> option (list path).
Variable sorted : list path -> list path.
Variable is_file : path -> world -> option bool.
Variable suffix : path -> pystr.
Variable read_text : path -> world -> option pystr.
Variable write_text : path -> pystr -> world -> ran.

(** The files and what was printed to [sys.stderr]. *)
Record process : Type := mkProcess {
  files : world;
  stderr : list string
}.

Definition process_file (p : path) (w : world) : ran :=
  match read_text p w with
  | None => Threw w
  | Some html =>
      match transform html with
      | None => Threw w
      | Some new_html =>
          if negb (pystr_eqb new_html html) then write_text p new_html w
          else Went w
      end
  end.

(** The test of the inner loop, [p.is_file() and p.suffix.lower() == ".html"]. *)
Definition wanted (p : path) (w : world) : option bool :=
  match is_file p w with
  | None => None
  | Some regular => Some (regular && pystr_eqb (lower (suffix p)) (str ".html"))
  end.

Fixpoint each_path (ps : list path) (w : world) : ran :=
  match ps with
  | [] => Went w
  | p :: ps' =>
      match wanted p w with
      | None => Threw w
      | Some true =>
          match process_file p w with
          | Went w' => each_path ps' w'
          | Threw w' => Threw w'
          end
      | Some false => each_path ps' w
      end
  end.

Fixpoint each_arg (args : list pystr) (w : world) : ran :=
  match args with
  | [] => Went w
  | arg :: args' =>
      match glob arg w with
      | None => Threw w
      | Some found =>
          match each_path (sorted found) w with
          | Went w' => each_arg args' w'
          | Threw w' => Threw w'
          end
      end
  end.

(** [main], on [sys.argv]. *)
Definition main (argv : list pystr) (pr : process) : outcome * process :=
  if length argv <? 2 then
    (SysExit 1, mkProcess (files pr) (stderr pr ++ [usage]))
  else
    match each_arg (tl argv) (files pr) with
    | Went w' => (Returned, mkProcess w' (stderr pr))
    | Threw w' => (Uncaught, mkProcess w' (stderr pr ++ [traceback]))
    end.

End Script.

(* ------------------------------------------------------------------ *)
(** ** Spans, described without the matcher

    The text of a span with tag name [t], attribute text [attrs] and the
    text [content] between the two tags. *)

Definition span_text (t attrs content : pystr) : pystr :=
  str "<" ++ t ++ attrs ++ str ">" ++ content ++ str "</" ++ t ++ str ">".

(** A letter followed by word characters, colons and hyphens. *)
Definition tag_name (t : pystr) : bool :=
  match t with
  | c :: tl => set_az c && forallb set_tag tl
  | [] => false
  end.

(** The word boundary behind the tag name: the next character is the first
    of [attrs], or the [>] that ends the open tag. *)
Definition boundary (t attrs : pystr) : bool :=
  xorb (isword (last t "<"%char)) (isword (hd ">"%char attrs)).

Definition nonempty (s : pystr) : bool :=
  match s with [] => false | _ :: _ => true end.

Definition wf_span (t attrs content : pystr) : bool :=
  tag_name t && boundary t attrs
  && forallb (set_not ">") attrs
  && nonempty content && forallb (set_not "<") content.

(** [a] starts with a span. *)
Definition has_span (a : pystr) : Prop :=
  exists t attrs content rest,
    wf_span t attrs content = true /\ a = span_text t attrs content ++ rest.

(** Every maximal run of whitespace replaced by one space; [in_run] tells
    that the character before was whitespace. *)
Fixpoint squeeze (in_run : bool) (s : pystr) : pystr :=
  match s with
  | [] => []
  | c :: s' =>
      if isspace c then
        if in_run then squeeze true s' else " "%char :: squeeze true s'
      else c :: squeeze false s'
  end.

Definition collapse_runs (s : pystr) : pystr := squeeze false s.

(** Collapse, then trim. *)
Definition normalize (s : pystr) : pystr := strip (collapse_runs s).

(** [t] is [s] without the whitespace at its two ends: whitespace only is
    cut off, and [t] neither starts nor ends with whitespace. *)
Definition trimmed (s t : pystr) : Prop :=
  exists w1 w2,
    forallb isspace w1 = true /\ forallb isspace w2 = true
    /\ s = w1 ++ t ++ w2
    /\ isspace (hd "x"%char t) = false
    /\ isspace (last t "x"%char) = false.

(** What a span is replaced with. *)
Definition reflowed (t attrs content : pystr) : pystr :=
  if mem (lower t) VOID || mem (lower t) EXCLUDED then span_text t attrs content
  else
    match normalize content with
    | [] => span_text t attrs content
    | text =>
        str "<" ++ lower t ++ attrs ++ str ">" ++ [nl] ++ INDENT ++ text
        ++ [nl] ++ str "</" ++ lower t ++ str ">"
    end.

(** The scan of a whole document: a span at the cursor is replaced and the
    scan resumes behind it, any other character is copied. *)
Inductive Reflow : pystr -> pystr -> Prop :=
| Reflow_nil : Reflow [] []
| Reflow_span t attrs content rest out :
    wf_span t attrs content = true ->
    Reflow rest out ->
    Reflow (span_text t attrs content ++ rest) (reflowed t attrs content ++ out)
| Reflow_char c rest out :
    ~ has_span (c :: rest) ->
    Reflow rest out ->
    Reflow (c :: rest) (c :: out).

(** Every span that starts anywhere in [x] is left as it is. *)
Definition stable (x : pystr) : Prop :=
  forall p t attrs content rest,
    x = p ++ span_text t attrs content ++ rest ->
    wf_span t attrs content = true ->
    reflowed t attrs content = span_text t attrs content.

(** [re.sub] and [transform] from a cursor inside the text, with the loop
    counter the rest of the text needs. *)
Definition sub_at (prog : list op) (repl : Match -> option pystr)
    (b a : pystr) : option pystr :=
  sub_loop (S (length a)) prog repl b a.

Definition transform_at (b a : pystr) : option pystr := sub_at pattern repl b a.

(** The replacement, from the groups of the match. *)
Definition replacement (g0 g1 g2 g3 : pystr) : pystr :=
  if mem (lower g1) VOID || mem (lower g1) EXCLUDED then g0
  else
    match normalize g3 with
    | [] => g0
    | text =>
        str "<" ++ lower g1 ++ g2 ++ str ">" ++ [nl] ++ INDENT ++ text
        ++ [nl] ++ str "</" ++ lower g1 ++ str ">"
    end.

(** The text of a span from the end of its open tag on. *)
Definition tail_text (t content : pystr) : pystr :=
  ">"%char :: content ++ "<"%char :: "/"%char :: t ++ [">"%char].

(** A tail that every span ending in it keeps. *)
Definition kept_tail (t content : pystr) : Prop :=
  mem (lower t) VOID || mem (lower t) EXCLUDED = true
  \/ normalize content = []
  \/ (lower t = t /\ content = nl :: INDENT ++ normalize content ++ [nl]).

(** Sequencing of two calls that may raise. *)
Definition and_then {A B : Type} (o : option A) (f : A -> option B) : option B :=
  match o with Some x => f x | None => None end.

Definition dq : ascii := "034"%char.

(** [pattern.match(s)]: the match that starts at the beginning of [s]. *)
Definition match_start (prog : list op) (s : pystr) : option Match :=
  option_map (match_of []) (exec prog (mkState [] s [])).

(** *** Notions for the further properties *)

(** The characters of a text that are not whitespace, in lower case. *)
Definition inked (c : ascii) : bool := negb (isspace c).

Definition skeleton (s : pystr) : pystr := lower (filter inked s).

(** [after_ws] tells that the character before was whitespace (or that the
    text starts here): whitespace is a space, never follows whitespace, and
    is not the last character. *)
Fixpoint spaced_line (after_ws : bool) (s : pystr) : bool :=
  match s with
  | [] => negb after_ws
  | c :: s' =>
      if isspace c then negb after_ws && (c =? " ")%char && spaced_line true s'
      else spaced_line false s'
  end.

(** A text line: empty, or words separated by single spaces. *)
Definition text_line (s : pystr) : bool :=
  match s with [] => true | _ :: _ => spaced_line true s end.

(** Like [spaced_line], but the text may end in whitespace. *)
Fixpoint spaced (after_ws : bool) (s : pystr) : bool :=
  match s with
  | [] => true
  | c :: s' =>
      if isspace c then negb after_ws && (c =? " ")%char && spaced true s'
      else spaced false s'
  end.

(** A text that [transform] returns as it is, as the result of a read. *)
Definition settled_text (o : option pystr) : Prop :=
  exists html, o = Some html /\ transform html = Some html.

(** What the script relies on when it is run again: a file holds what was
    written to it, a write changes no other file, a write changes neither
    what a pattern expands to nor which paths are regular files, and a
    write that raises leaves the files as they were. *)
Definition fs_laws (world path : Type)
    (glob : pystr -> world -> option (list path))
    (is_file : path -> world -> option bool)
    (read_text : path -> world -> option pystr)
    (write_text : path -> pystr -> world -> ran world) : Prop :=
  (forall p s w w', write_text p s w = Went world w' -> read_text p w' = Some s)
  /\ (forall p q s w w',
         write_text p s w = Went world w' ->
         q = p \/ read_text q w' = read_text q w)
  /\ (forall arg p s w w',
         write_text p s w = Went world w' -> glob arg w' = glob arg w)
  /\ (forall q p s w w',
         write_text p s w = Went world w' -> is_file q w' = is_file q w)
  /\ (forall p s w w', write_text p s w = Threw world w' -> w' = w).

(** What a run keeps of the file system: the paths a pattern expands to,
    which of them are regular files, and every file that [transform] leaves
    as it is. *)
Definition unchanged_by_run (world path : Type)
    (glob : pystr -> world -> option (list path))
    (is_file : path -> world -> option bool)
    (read_text : path -> world -> option pystr)
    (w w' : world) : Prop :=
  (forall arg, glob arg w' = glob arg w)
  /\ (forall q, is_file q w' = is_file q w)
  /\ (forall q, settled_text (read_text q w) -> settled_text (read_text q w')).

(** No call into the file system raises. *)
Definition never_raises (world path : Type)
    (glob : pystr -> world -> option (list path))
    (is_file : path -> world -> option bool)
    (read_text : path -> world -> option pystr)
    (write_text : path -> pystr -> world -> ran world) : Prop :=
  (forall arg w, glob arg w <> None)
  /\ (forall p w, is_file p w <> None)
  /\ (forall p w, read_text p w <> None)
  /\ (forall p s w, exists w', write_text p s w = Went world w').

(** A file system of two files, named [true] and [false], both regular.
    A pattern expands to both, and as with [Path.glob] an empty pattern and
    a pattern that starts at the root raise. *)
Definition two_files : Type := (pystr * pystr)%type.
Definition read_two (p : bool) (w : two_files) : option pystr :=
  Some (if p then fst w else snd w).
Definition write_two (p : bool) (s : pystr) (w : two_files) : ran two_files :=
  Went two_files (if p then (s, snd w) else (fst w, s)).
Definition glob_two (arg : pystr) (w : two_files) : option (list bool) :=
  match arg with
  | [] => None
  | c :: _ => if (c =? "/")%char then None else Some [true; false]
  end.
Definition is_file_two (p : bool) (w : two_files) : option bool := Some true.

(** The same two files when the second one cannot be written. *)
Definition write_locked (p : bool) (s : pystr) (w : two_files) : ran two_files :=
  if p then Went two_files (s, snd w) else Threw two_files w.

(* ------------------------------------------------------------------ *)
(** ** Characters *)

Ltac each_char c :=
  destruct c as [[|] [|] [|] [|] [|] [|] [|] [|]]; vm_compute;
  try reflexivity; try discriminate; try tauto.

Lemma set_not_true (x c : ascii) : set_not x c = true <-> c <> x.
Proof.
  unfold set_not. rewrite negb_true_iff. apply Ascii.eqb_neq.
Qed.

Lemma set_not_self (x : ascii) : set_not x x = false.
Proof. unfold set_not. now rewrite Ascii.eqb_refl. Qed.

Lemma set_tag_not_lt (c : ascii) : set_tag c = true -> set_not "<" c = true.
Proof. each_char c. Qed.

Lemma set_tag_not_gt (c : ascii) : set_tag c = true -> set_not ">" c = true.
Proof. each_char c. Qed.

Lemma set_az_tag (c : ascii) : set_az c = true -> set_tag c = true.
Proof. each_char c. Qed.

Lemma set_az_not_slash (c : ascii) : set_az c = true -> c <> "/"%char.
Proof. each_char c. Qed.

Lemma isspace_not_lt (c : ascii) : isspace c = true -> set_not "<" c = true.
Proof. each_char c. Qed.

Lemma lower_char_idem (c : ascii) : lower_char (lower_char c) = lower_char c.
Proof. each_char c. Qed.

Lemma lower_char_tag_not_lt (c : ascii) :
  set_tag c = true -> set_not "<" (lower_char c) = true.
Proof. each_char c. Qed.

Lemma lower_char_tag_not_gt (c : ascii) :
  set_tag c = true -> set_not ">" (lower_char c) = true.
Proof. each_char c. Qed.

(* ------------------------------------------------------------------ *)
(** ** Lists *)

Lemma pystr_eqb_eq (s t : pystr) : pystr_eqb s t = true <-> s = t.
Proof.
  revert t; induction s as [|x s IH]; intros [|y t]; simpl;
    try (split; [discriminate | discriminate]); try tauto.
  rewrite andb_true_iff, Ascii.eqb_eq, IH.
  split; [intros [-> ->]; reflexivity | intros H; inversion H; auto].
Qed.

Lemma pystr_eqb_refl (s : pystr) : pystr_eqb s s = true.
Proof. now apply pystr_eqb_eq. Qed.

Lemma forallb_impl (p q : ascii -> bool) (l : pystr) :
  (forall c, p c = true -> q c = true) ->
  forallb p l = true -> forallb q l = true.
Proof.
  intros Hpq. rewrite !forallb_forall. auto.
Qed.

(** Two ways to cut a list at the first occurrence of [x] agree. *)
Lemma first_cut_unique (x : ascii) (l1 r1 l2 r2 : pystr) :
  forallb (set_not x) l1 = true ->
  forallb (set_not x) l2 = true ->
  l1 ++ x :: r1 = l2 ++ x :: r2 ->
  l1 = l2 /\ r1 = r2.
Proof.
  revert l2; induction l1 as [|a l1 IH]; intros [|b l2] H1 H2 E; simpl in *.
  - inversion E; auto.
  - inversion E; subst. now rewrite set_not_self in H2.
  - inversion E; subst. now rewrite set_not_self in H1.
  - apply andb_true_iff in H1 as [_ H1]. apply andb_true_iff in H2 as [_ H2].
    inversion E; subst. destruct (IH l2 H1 H2 H3) as [-> ->]. auto.
Qed.

(** A prefix free of [x] ends before the first [x] of the list. *)
Lemma free_prefix (x : ascii) (l1 r1 l2 r2 : pystr) :
  forallb (set_not x) l2 = true ->
  l1 ++ r1 = l2 ++ x :: r2 ->
  (exists k, l1 = l2 ++ x :: k /\ r2 = k ++ r1)
  \/ (exists k, l2 = l1 ++ k /\ r1 = k ++ x :: r2).
Proof.
  revert l2; induction l1 as [|a l1 IH]; intros l2 H2 E; simpl in *.
  - right. exists l2. auto.
  - destruct l2 as [|b l2]; simpl in *.
    + inversion E; subst. left. exists l1. auto.
    + apply andb_true_iff in H2 as [_ H2]. inversion E; subst.
      destruct (IH l2 H2 H1) as [[k [-> ->]]|[k [-> ->]]].
      * left. exists k. auto.
      * right. exists k. auto.
Qed.

(** Cut a list at its first [x], if it has one. *)
Lemma first_cut (x : ascii) (l : pystr) :
  forallb (set_not x) l = true
  \/ exists l1 l2, l = l1 ++ x :: l2 /\ forallb (set_not x) l1 = true.
Proof.
  induction l as [|a l IH]; simpl.
  - now left.
  - destruct (Ascii.eqb_spec a x) as [->|Hne].
    + right. exists [], l. auto.
    + assert (Ha : set_not x a = true) by now apply set_not_true.
      rewrite Ha. simpl.
      destruct IH as [IH|[l1 [l2 [-> IH]]]].
      * now left.
      * right. exists (a :: l1), l2. simpl. rewrite Ha, IH. auto.
Qed.

Lemma substring_mid (x y z : pystr) :
  substring (x ++ y ++ z) (length x) (length x + length y) = y.
Proof.
  unfold substring.
  rewrite skipn_app, skipn_all, Nat.sub_diag. simpl.
  replace (length x + length y - length x) with (length y) by lia.
  rewrite firstn_app, firstn_all, Nat.sub_diag. simpl.
  now rewrite app_nil_r.
Qed.

Lemma strip_prefix_some (g a a' : pystr) :
  strip_prefix g a = Some a' <-> a = g ++ a'.
Proof.
  revert a; induction g as [|x g IH]; intros a; simpl.
  - split; [intros H; inversion H; auto | intros ->; auto].
  - destruct a as [|y a]; [split; discriminate|].
    destruct (Ascii.eqb_spec x y) as [->|Hne].
    + rewrite IH. split; [intros ->; auto | intros H; inversion H; auto].
    + split; [discriminate | intros H; inversion H; congruence].
Qed.

Lemma last_map_some (l : pystr) (d : ascii) :
  l <> [] -> last (map Some l) None = Some (last l d).
Proof.
  induction l as [|a l IH]; [contradiction|]. intros _.
  destruct l as [|b l]; [reflexivity|].
  change (last (map Some (b :: l)) None = Some (last (b :: l) d)).
  apply IH. discriminate.
Qed.

(* ------------------------------------------------------------------ *)
(** ** The matcher: what an alternative is *)

Lemma first_some_inv {A B : Type} (f : A -> option B) (l : list A) (r : B) :
  first_some f l = Some r -> exists x, In x l /\ f x = Some r.
Proof.
  induction l as [|x l IH]; simpl; [discriminate|].
  destruct (f x) eqn:E.
  - intros H; inversion H; subst. exists x. auto.
  - intros H. destruct (IH H) as [y [Hy Hf]]. exists y. auto.
Qed.

Lemma first_some_none {A B : Type} (f : A -> option B) (l : list A) :
  first_some f l = None <-> forall x, In x l -> f x = None.
Proof.
  induction l as [|x l IH]; simpl.
  - split; [intros _ y [] | auto].
  - destruct (f x) eqn:E.
    + split; [discriminate|]. intros H. rewrite (H x) in E; [discriminate|auto].
    + rewrite IH. split.
      * intros H y [<-|Hy]; auto.
      * intros H y Hy. apply H. auto.
Qed.

Lemma first_some_in {A B : Type} (f : A -> option B) (l : list A) (x : A) :
  In x l -> f x <> None -> first_some f l <> None.
Proof.
  intros Hin Hx Hnone. rewrite first_some_none in Hnone. auto.
Qed.

Lemma first_some_single {A B : Type} (f : A -> option B) (x : A) :
  first_some f [x] = f x.
Proof. simpl. now destruct (f x). Qed.

Lemma greedy_in (set : ascii -> bool) (b a : pystr) (ms : list (nat * nat))
    (st' : state) :
  In st' (greedy set b a ms) <->
  exists run r, a = run ++ r /\ forallb set run = true
                /\ st' = mkState (b ++ run) r ms.
Proof.
  revert b; induction a as [|c a IH]; intros b; simpl.
  - split.
    + intros [<-|[]]. exists [], []. now rewrite ?app_nil_r.
    + intros [run [r [E [_ ->]]]]. destruct run; [|discriminate].
      simpl in E; subst. rewrite app_nil_r. auto.
  - destruct (set c) eqn:Hc.
    + rewrite in_app_iff, IH. simpl. split.
      * intros [[run [r [-> [Hrun ->]]]]|[<-|[]]].
        -- exists (c :: run), r. simpl. now rewrite Hc, Hrun, <- app_assoc.
        -- exists [], (c :: a). now rewrite ?app_nil_r.
      * intros [[|x run] [r [E [Hrun ->]]]]; simpl in *.
        -- subst. rewrite app_nil_r. auto.
        -- inversion E; subst. left. exists run, r.
           apply andb_true_iff in Hrun as [_ Hrun].
           now rewrite <- app_assoc.
    + simpl. split.
      * intros [<-|[]]. exists [], (c :: a). now rewrite ?app_nil_r.
      * intros [[|x run] [r [E [Hrun ->]]]]; simpl in *.
        -- subst. rewrite app_nil_r. auto.
        -- inversion E; subst. rewrite Hc in Hrun. discriminate.
Qed.

Lemma lazy_in (set : ascii -> bool) (b a : pystr) (ms : list (nat * nat))
    (st' : state) :
  In st' (lazy set b a ms) <->
  exists run r, a = run ++ r /\ forallb set run = true
                /\ st' = mkState (b ++ run) r ms.
Proof.
  revert b; induction a as [|c a IH]; intros b; simpl.
  - split.
    + intros [<-|[]]. exists [], []. now rewrite ?app_nil_r.
    + intros [run [r [E [_ ->]]]]. destruct run; [|discriminate].
      simpl in E; subst. rewrite app_nil_r. auto.
  - destruct (set c) eqn:Hc.
    + rewrite IH. split.
      * intros [<-|[run [r [-> [Hrun ->]]]]].
        -- exists [], (c :: a). now rewrite ?app_nil_r.
        -- exists (c :: run), r. simpl. now rewrite Hc, Hrun, <- app_assoc.
      * intros [[|x run] [r [E [Hrun ->]]]]; simpl in *.
        -- subst. rewrite app_nil_r. auto.
        -- inversion E; subst. right. exists run, r.
           apply andb_true_iff in Hrun as [_ Hrun].
           now rewrite <- app_assoc.
    + split.
      * intros [<-|[]]. exists [], (c :: a). now rewrite ?app_nil_r.
      * intros [[|x run] [r [E [Hrun ->]]]]; simpl in *.
        -- subst. rewrite app_nil_r. auto.
        -- inversion E; subst. rewrite Hc in Hrun. discriminate.
Qed.

Lemma exec_inv (o : op) (k : list op) (st r : state) :
  exec (o :: k) st = Some r ->
  exists st1, In st1 (step o st) /\ exec k st1 = Some r.
Proof. apply first_some_inv. Qed.

Lemma exec_alt (o : op) (k : list op) (st st1 : state) :
  In st1 (step o st) -> exec k st1 <> None -> exec (o :: k) st <> None.
Proof. apply first_some_in. Qed.

Lemma step_literal (c : ascii) (b a : pystr) (ms : list (nat * nat))
    (st' : state) :
  In st' (step (LITERAL c) (mkState b a ms)) <->
  exists a', a = c :: a' /\ st' = mkState (b ++ [c]) a' ms.
Proof.
  unfold step; simpl. destruct a as [|x a].
  - split; [intros [] | intros [a' [E _]]; discriminate].
  - destruct (Ascii.eqb_spec x c) as [->|Hne]; split.
    + intros [<-|[]]. eauto.
    + intros [a' [E ->]]. inversion E; subst. now left.
    + intros [].
    + intros [a' [E _]]. inversion E; congruence.
Qed.

Lemma step_in (set : ascii -> bool) (b a : pystr) (ms : list (nat * nat))
    (st' : state) :
  In st' (step (IN set) (mkState b a ms)) <->
  exists x a', a = x :: a' /\ set x = true /\ st' = mkState (b ++ [x]) a' ms.
Proof.
  unfold step; simpl. destruct a as [|x a].
  - split; [intros [] | intros [y [a' [E _]]]; discriminate].
  - destruct (set x) eqn:Hx; split.
    + intros [<-|[]]. eauto.
    + intros [y [a' [E [_ ->]]]]. inversion E; subst. now left.
    + intros [].
    + intros [y [a' [E [Hy _]]]]. inversion E; congruence.
Qed.

Lemma step_boundary (b a : pystr) (ms : list (nat * nat)) (st' : state) :
  In st' (step AT_BOUNDARY (mkState b a ms)) <->
  xorb (word_at (last (map Some b) None)) (word_at (hd_error a)) = true
  /\ st' = mkState b a ms.
Proof.
  unfold step; simpl.
  destruct (xorb (word_at (last (map Some b) None)) (word_at (hd_error a))).
  - split; [intros [<-|[]]; auto | intros [_ ->]; now left].
  - split; [intros [] | intros [H _]; discriminate].
Qed.

Lemma step_mark (k : nat) (b a : pystr) (ms : list (nat * nat)) (st' : state) :
  In st' (step (MARK k) (mkState b a ms)) <->
  st' = mkState b a ((k, length b) :: ms).
Proof.
  unfold step; simpl. split; [intros [<-|[]]; auto | intros ->; now left].
Qed.

Lemma step_groupref (n : nat) (b a : pystr) (ms : list (nat * nat))
    (st' : state) :
  In st' (step (GROUPREF n) (mkState b a ms)) <->
  exists g a', group_of (b ++ a) ms n = Some g /\ a = g ++ a'
               /\ st' = mkState (b ++ g) a' ms.
Proof.
  unfold step; simpl. destruct (group_of (b ++ a) ms n) as [g|].
  - destruct (strip_prefix g a) as [a'|] eqn:E.
    + apply strip_prefix_some in E. split.
      * intros [<-|[]]. eauto.
      * intros [g' [a'' [Hg [Ha ->]]]]. inversion Hg; subst g'.
        rewrite E in Ha. apply app_inv_head in Ha. subst. now left.
    + split; [intros []|].
      intros [g' [a'' [Hg [Ha _]]]]. inversion Hg; subst g'.
      apply strip_prefix_some in Ha. congruence.
  - split; [intros [] | intros [g [a' [Hg _]]]; discriminate].
Qed.

Lemma substring_at (s x y z : pystr) (i j : nat) :
  s = x ++ y ++ z -> i = length x -> j = length x + length y ->
  substring s i j = y.
Proof. intros -> -> ->. apply substring_mid. Qed.

Lemma last_app_cons {A : Type} (l k : list A) (y d : A) :
  last (l ++ y :: k) d = last (y :: k) d.
Proof.
  induction l as [|a l IH]; [reflexivity|].
  rewrite <- IH.
  change ((a :: l) ++ y :: k) with (a :: (l ++ y :: k)).
  destruct (l ++ y :: k) eqn:E; [destruct l; discriminate | reflexivity].
Qed.

Lemma boundary_at (b t attrs rest : pystr) :
  t <> [] ->
  xorb (word_at (last (map Some (b ++ t)) None))
       (word_at (hd_error (attrs ++ ">"%char :: rest)))
  = boundary t attrs.
Proof.
  intros Ht. unfold boundary. destruct t as [|x t]; [contradiction|].
  rewrite map_app. simpl map. rewrite last_app_cons.
  change (Some x :: map Some t) with (map Some (x :: t)).
  rewrite (last_map_some (x :: t) "<"%char) by discriminate.
  destruct attrs; reflexivity.
Qed.

Lemma nonempty_app_r (l k : pystr) : nonempty k = true -> nonempty (l ++ k) = true.
Proof. destruct l; simpl; auto. Qed.

(* ------------------------------------------------------------------ *)
(** ** The pattern matches exactly the spans *)

Ltac inv_step H :=
  let st1 := fresh "st" in
  let Hin := fresh "Hin" in
  apply exec_inv in H; destruct H as [st1 [Hin H]];
  first
    [ apply step_literal in Hin; destruct Hin as [? [? ?]]
    | apply step_in in Hin; destruct Hin as [? [? [? [? ?]]]]
    | apply greedy_in in Hin; destruct Hin as [? [? [? [? ?]]]]
    | apply lazy_in in Hin; destruct Hin as [? [? [? [? ?]]]]
    | apply step_boundary in Hin; destruct Hin as [? ?]
    | apply step_mark in Hin
    | apply step_groupref in Hin; destruct Hin as [? [? [? [? ?]]]] ];
  cbn [before after marks] in *; subst.


Lemma group_1 (s : pystr) (p0 p1 p2 p3 p4 p5 : nat) :
  group_of s [(5, p5); (4, p4); (3, p3); (2, p2); (1, p1); (0, p0)] 1
  = Some (substring s p0 p1).
Proof. reflexivity. Qed.

Lemma group_2 (s : pystr) (p0 p1 p2 p3 p4 p5 : nat) :
  group_of s [(5, p5); (4, p4); (3, p3); (2, p2); (1, p1); (0, p0)] 2
  = Some (substring s p2 p3).
Proof. reflexivity. Qed.

Lemma group_3 (s : pystr) (p0 p1 p2 p3 p4 p5 : nat) :
  group_of s [(5, p5); (4, p4); (3, p3); (2, p2); (1, p1); (0, p0)] 3
  = Some (substring s p4 p5).
Proof. reflexivity. Qed.

Ltac norm_app :=
  cbn [str list_ascii_of_string app];
  repeat first [rewrite <- app_assoc | rewrite <- app_comm_cons];
  cbn [app].

Ltac slice X Y :=
  eapply substring_at with (x := X) (y := Y);
  [ norm_app; reflexivity
  | repeat first [rewrite length_app | progress cbn [length]]; lia
  | repeat first [rewrite length_app | progress cbn [length]]; lia ].

Lemma pattern_sound (b a : pystr) (st' : state) :
  exec pattern (mkState b a []) = Some st' ->
  exists t attrs w1 inner w2 rest,
    wf_span t attrs (w1 ++ inner ++ w2) = true /\
    forallb isspace w1 = true /\ forallb isspace w2 = true /\
    nonempty inner = true /\
    a = span_text t attrs (w1 ++ inner ++ w2) ++ rest /\
    before st' = b ++ span_text t attrs (w1 ++ inner ++ w2) /\
    after st' = rest /\
    group_of (before st' ++ after st') (marks st') 1 = Some t /\
    group_of (before st' ++ after st') (marks st') 2 = Some attrs /\
    group_of (before st' ++ after st') (marks st') 3 = Some inner.
Proof.
  unfold pattern. intros H.
  do 20 inv_step H. cbn [exec] in H. inversion H; subst; clear H.
  cbn [before after marks].
  rewrite group_1 in *. rewrite group_2, group_3.
  match goal with
  | Hg : Some (substring _ _ _) = Some ?g |- _ =>
      injection Hg as Hg;
      assert (Eg : g = x0 :: x) by (rewrite <- Hg; slice (b ++ ["<"%char]) (x0 :: x));
      clear Hg; subst g
  end.
  exists (x0 :: x), x1, x3, (x2 :: x4), x5, x7.
  repeat split; auto.
  - rewrite <- (app_assoc (b ++ ["<"%char]) [x0] x) in H0.
    change ([x0] ++ x) with (x0 :: x) in H0.
    rewrite boundary_at in H0 by discriminate.
    unfold wf_span. cbn [tag_name]. rewrite H1, H2, H0, H4. cbn [andb].
    rewrite nonempty_app_r by reflexivity. cbn [andb].
    rewrite !forallb_app. cbn [forallb]. rewrite H6, H7. cbn [andb].
    rewrite (forallb_impl _ _ _ isspace_not_lt H5).
    now rewrite (forallb_impl _ _ _ isspace_not_lt H8).
  - unfold span_text. norm_app. reflexivity.
  - unfold span_text. norm_app. reflexivity.
  - f_equal. slice (b ++ ["<"%char]) (x0 :: x).
  - f_equal. slice (b ++ "<"%char :: x0 :: x) x1.
  - f_equal. slice (b ++ "<"%char :: x0 :: x ++ x1 ++ ">"%char :: x3) (x2 :: x4).
Qed.

Ltac alt_lit :=
  eapply exec_alt; [apply step_literal; eexists; split; reflexivity|];
  cbn [before after marks].
Ltac alt_mark :=
  eapply exec_alt; [apply step_mark; reflexivity|];
  cbn [before after marks].
Ltac alt_in H :=
  eapply exec_alt;
  [apply step_in; do 2 eexists; split; [reflexivity | split; [exact H | reflexivity]]|];
  cbn [before after marks].
Ltac alt_max run H :=
  eapply exec_alt;
  [apply greedy_in; exists run; eexists;
   split; [reflexivity | split; [exact H | reflexivity]]|];
  cbn [before after marks].
Ltac alt_min run H :=
  eapply exec_alt;
  [apply lazy_in; exists run; eexists;
   split; [reflexivity | split; [exact H | reflexivity]]|];
  cbn [before after marks].

Lemma pattern_complete (b t attrs content rest : pystr) :
  wf_span t attrs content = true ->
  exec pattern (mkState b (span_text t attrs content ++ rest) []) <> None.
Proof.
  unfold wf_span. rewrite !andb_true_iff.
  intros [[[[Ht Hb] Ha] Hn] Hc].
  destruct t as [|x0 tl]; [discriminate|].
  destruct content as [|i0 itl]; [discriminate|].
  cbn [tag_name] in Ht. apply andb_true_iff in Ht as [Hx0 Htl].
  cbn [forallb] in Hc. apply andb_true_iff in Hc as [Hi0 Hitl].
  unfold span_text, pattern. norm_app.
  alt_lit. alt_mark. alt_in Hx0. alt_max tl Htl. alt_mark.
  eapply exec_alt.
  { apply step_boundary. split; [|reflexivity].
    rewrite <- (app_assoc (b ++ ["<"%char]) [x0] tl).
    change ([x0] ++ tl) with (x0 :: tl).
    rewrite boundary_at by discriminate. exact Hb. }
  cbn [before after marks]. alt_mark. alt_max attrs Ha. alt_mark. alt_lit.
  alt_max (@nil ascii) (eq_refl true). alt_mark. alt_in Hi0.
  alt_min itl Hitl. alt_mark. alt_max (@nil ascii) (eq_refl true).
  alt_lit. alt_lit.
  eapply exec_alt.
  { apply step_groupref. exists (x0 :: tl). eexists.
    split; [|split; [reflexivity|reflexivity]].
    rewrite group_1. f_equal. slice (b ++ ["<"%char]) (x0 :: tl). }
  cbn [before after marks]. alt_lit. discriminate.
Qed.


Lemma wf_span_inv (t attrs content : pystr) :
  wf_span t attrs content = true ->
  tag_name t = true /\ boundary t attrs = true
  /\ forallb (set_not ">") attrs = true
  /\ nonempty content = true /\ forallb (set_not "<") content = true.
Proof.
  unfold wf_span. rewrite !andb_true_iff. tauto.
Qed.

Lemma tag_name_tag (t : pystr) : tag_name t = true -> forallb set_tag t = true.
Proof.
  destruct t as [|c t]; [discriminate|]. cbn [tag_name forallb].
  rewrite !andb_true_iff. intros [Hc Ht]. split; [now apply set_az_tag | exact Ht].
Qed.

Lemma tag_name_no_gt (t : pystr) :
  tag_name t = true -> forallb (set_not ">") t = true.
Proof.
  intros H. apply (forallb_impl _ _ _ set_tag_not_gt), tag_name_tag, H.
Qed.

Lemma tag_name_no_lt (t : pystr) :
  tag_name t = true -> forallb (set_not "<") t = true.
Proof.
  intros H. apply (forallb_impl _ _ _ set_tag_not_lt), tag_name_tag, H.
Qed.

Lemma span_text_eq (t attrs content rest : pystr) :
  span_text t attrs content ++ rest
  = "<"%char :: (t ++ attrs) ++ ">"%char
      :: content ++ "<"%char :: "/"%char :: t ++ ">"%char :: rest.
Proof. unfold span_text. norm_app. reflexivity. Qed.

(** A span at the head of a text is determined by the text. *)
Lemma span_unique (t attrs content rest t' attrs' content' rest' : pystr) :
  wf_span t attrs content = true ->
  wf_span t' attrs' content' = true ->
  span_text t attrs content ++ rest = span_text t' attrs' content' ++ rest' ->
  t = t' /\ attrs = attrs' /\ content = content' /\ rest = rest'.
Proof.
  intros H H' E.
  apply wf_span_inv in H as [Ht [_ [Ha [_ Hc]]]].
  apply wf_span_inv in H' as [Ht' [_ [Ha' [_ Hc']]]].
  rewrite !span_text_eq in E. injection E as E.
  apply first_cut_unique in E as [E1 E2];
    try (rewrite forallb_app, tag_name_no_gt by assumption; assumption).
  apply first_cut_unique in E2 as [-> E2]; try assumption.
  injection E2 as E2.
  apply first_cut_unique in E2 as [-> ->]; try now apply tag_name_no_gt.
  apply app_inv_head in E1. auto.
Qed.

Lemma step_consumes (o : op) (st st1 : state) :
  In st1 (step o st) ->
  exists x, after st = x ++ after st1 /\ before st1 = before st ++ x.
Proof.
  destruct st as [b a ms]. destruct o; intros H; cbn [before after].
  - apply step_literal in H as [a' [-> ->]]. exists [c]. auto.
  - apply step_in in H as [x [a' [-> [_ ->]]]]. exists [x]. auto.
  - cbn [step before after marks] in H.
    apply greedy_in in H as [run [r [-> [_ ->]]]]. exists run. auto.
  - cbn [step before after marks] in H.
    apply lazy_in in H as [run [r [-> [_ ->]]]]. exists run. auto.
  - apply step_boundary in H as [_ ->]. exists []. now rewrite app_nil_r.
  - apply step_mark in H as ->. exists []. now rewrite app_nil_r.
  - apply step_groupref in H as [g [a' [_ [-> ->]]]]. exists g. auto.
Qed.

Lemma exec_consumes (prog : list op) (st st' : state) :
  exec prog st = Some st' ->
  exists x, after st = x ++ after st' /\ before st' = before st ++ x.
Proof.
  revert st; induction prog as [|o k IH]; intros st H.
  - injection H as <-. exists []. now rewrite app_nil_r.
  - apply exec_inv in H as [st1 [Hin H]].
    apply step_consumes in Hin as [x [Ex Eb]].
    apply IH in H as [y [Ey Eb']].
    exists (x ++ y). rewrite Ex, Ey, Eb', Eb, !app_assoc. auto.
Qed.

Lemma sub_loop_fuel (prog : list op) (repl : Match -> option pystr)
    (n m : nat) (b a : pystr) :
  length a < n -> length a < m ->
  sub_loop n prog repl b a = sub_loop m prog repl b a.
Proof.
  revert m b a; induction n as [|n IH]; intros m b a Hn Hm; [lia|].
  destruct m as [|m]; [lia|]. cbn [sub_loop].
  destruct (exec prog (mkState b a [])) as [st'|] eqn:E.
  - destruct (repl (match_of b st')) as [r|]; [|reflexivity].
    destruct (length (before st') =? length b) eqn:El.
    + destruct a as [|c a']; [reflexivity|]. cbn [length] in *.
      f_equal. apply IH; lia.
    + apply exec_consumes in E as [x [Ex Eb]]. cbn [before after] in *.
      apply Nat.eqb_neq in El. rewrite Eb, length_app in El.
      assert (length a = length x + length (after st'))
        by now rewrite Ex, length_app.
      f_equal. apply IH; lia.
  - destruct a as [|c a']; [reflexivity|]. cbn [length] in *.
    f_equal. apply IH; lia.
Qed.


Lemma sub_at_eq (prog : list op) (repl : Match -> option pystr) (b a : pystr) :
  sub_at prog repl b a =
  match exec prog (mkState b a []) with
  | Some st' =>
      match repl (match_of b st') with
      | None => None
      | Some r =>
          if length (before st') =? length b then
            match a with
            | [] => Some r
            | c :: a' =>
                option_map (fun tl => r ++ c :: tl) (sub_at prog repl (b ++ [c]) a')
            end
          else option_map (app r) (sub_at prog repl (before st') (after st'))
      end
  | None =>
      match a with
      | [] => Some []
      | c :: a' => option_map (cons c) (sub_at prog repl (b ++ [c]) a')
      end
  end.
Proof.
  unfold sub_at at 1. cbn [sub_loop].
  destruct (exec prog (mkState b a [])) as [st'|] eqn:E.
  - destruct (repl (match_of b st')) as [r|]; [|reflexivity].
    destruct (length (before st') =? length b) eqn:El.
    + destruct a as [|c a']; reflexivity.
    + apply exec_consumes in E as [x [Ex Eb]]. cbn [before after] in *.
      apply Nat.eqb_neq in El. rewrite Eb, length_app in El.
      assert (length a = length x + length (after st'))
        by now rewrite Ex, length_app.
      f_equal. apply sub_loop_fuel; lia.
  - destruct a as [|c a']; reflexivity.
Qed.

Lemma sub_eq (prog : list op) (repl : Match -> option pystr) (s : pystr) :
  sub prog repl s = sub_at prog repl [] s.
Proof. reflexivity. Qed.

(** *** The whitespace collapse *)

Lemma greedy_space_first (a b : pystr) (ms : list (nat * nat)) :
  exists run l,
    greedy isspace b a ms = mkState (b ++ run) (lstrip a) ms :: l.
Proof.
  revert b; induction a as [|c a IH]; intros b; cbn [greedy lstrip].
  - exists [], []. now rewrite app_nil_r.
  - destruct (isspace c) eqn:Hc.
    + destruct (IH (b ++ [c])) as [run [l ->]].
      exists (c :: run), (l ++ [mkState b (c :: a) ms]).
      now rewrite <- app_assoc.
    + exists [], []. now rewrite app_nil_r.
Qed.

Lemma ws_plus_space (b a : pystr) (c : ascii) :
  isspace c = true ->
  exists st', exec ws_plus (mkState b (c :: a) []) = Some st'
              /\ after st' = lstrip a
              /\ (length (before st') =? length b) = false.
Proof.
  intros Hc. unfold ws_plus.
  change (exec [IN isspace; MAX_REPEAT isspace] (mkState b (c :: a) []))
    with (first_some (exec [MAX_REPEAT isspace])
            (if isspace c then [mkState (b ++ [c]) a []] else [])).
  rewrite Hc, first_some_single.
  change (exec [MAX_REPEAT isspace] (mkState (b ++ [c]) a []))
    with (first_some (exec []) (greedy isspace (b ++ [c]) a [])).
  destruct (greedy_space_first a (b ++ [c]) []) as [run [l ->]].
  cbn [first_some exec]. eexists. split; [reflexivity|]. cbn [before after].
  split; [reflexivity|]. apply Nat.eqb_neq.
  rewrite !length_app. cbn [length]. lia.
Qed.

Lemma ws_plus_other (b a : pystr) (c : ascii) :
  isspace c = false -> exec ws_plus (mkState b (c :: a) []) = None.
Proof.
  intros Hc. unfold ws_plus.
  change (exec [IN isspace; MAX_REPEAT isspace] (mkState b (c :: a) []))
    with (first_some (exec [MAX_REPEAT isspace])
            (if isspace c then [mkState (b ++ [c]) a []] else [])).
  now rewrite Hc.
Qed.

Lemma squeeze_true_lstrip (s : pystr) :
  squeeze true s = squeeze false (lstrip s).
Proof.
  induction s as [|c s IH]; [reflexivity|]. cbn [squeeze lstrip].
  destruct (isspace c) eqn:Hc; [exact IH|]. cbn [squeeze]. now rewrite Hc.
Qed.

Lemma lstrip_length (s : pystr) : length (lstrip s) <= length s.
Proof.
  induction s as [|c s IH]; [auto|]. cbn [lstrip].
  destruct (isspace c); cbn [length]; lia.
Qed.

(** [re.sub] on the whitespace pattern computes the collapse of the runs. *)
Lemma collapse_sub (s b : pystr) :
  sub_at ws_plus (fun _ => Some (str " ")) b s = Some (collapse_runs s).
Proof.
  unfold collapse_runs.
  remember (length s) as n eqn:En.
  revert s b En; induction n as [n IH] using lt_wf_ind; intros s b En.
  rewrite sub_at_eq. destruct s as [|c s].
  - reflexivity.
  - cbn [squeeze]. destruct (isspace c) eqn:Hc.
    + destruct (ws_plus_space b s c Hc) as [st' [-> [Ea ->]]].
      rewrite Ea, squeeze_true_lstrip.
      rewrite (IH (length (lstrip s))) with (s := lstrip s); [reflexivity| |reflexivity].
      subst n. cbn [length]. pose proof (lstrip_length s). lia.
    + rewrite (ws_plus_other b s c Hc).
      rewrite (IH (length s)) with (s := s); [reflexivity| |reflexivity].
      subst n. cbn [length]. lia.
Qed.

(** *** Collapse and trim *)

Lemma forallb_rev (p : ascii -> bool) (s : pystr) :
  forallb p (rev s) = forallb p s.
Proof.
  apply eq_true_iff_eq. rewrite !forallb_forall. split; intros H x Hx.
  - apply H. now apply in_rev in Hx.
  - apply H. now apply in_rev.
Qed.

Lemma lstrip_ws_app (w s : pystr) :
  forallb isspace w = true -> lstrip (w ++ s) = lstrip s.
Proof.
  induction w as [|c w IH]; [reflexivity|]. cbn [forallb app lstrip].
  intros H. apply andb_true_iff in H as [-> H]. auto.
Qed.

Lemma lstrip_ws (w : pystr) : forallb isspace w = true -> lstrip w = [].
Proof.
  intros H. rewrite <- (app_nil_r w). now rewrite lstrip_ws_app.
Qed.

Lemma rstrip_app_ws (s w : pystr) :
  forallb isspace w = true -> rstrip (s ++ w) = rstrip s.
Proof.
  intros H. unfold rstrip. rewrite rev_app_distr, lstrip_ws_app; [reflexivity|].
  now rewrite forallb_rev.
Qed.

Lemma lstrip_decomp (s : pystr) :
  exists w, forallb isspace w = true /\ s = w ++ lstrip s.
Proof.
  induction s as [|c s [w [Hw E]]]; [exists []; auto|]. cbn [lstrip].
  destruct (isspace c) eqn:Hc.
  - exists (c :: w). cbn [forallb app]. rewrite Hc, Hw, <- E. auto.
  - exists []. auto.
Qed.

Lemma rstrip_decomp (s : pystr) :
  exists w, forallb isspace w = true /\ s = rstrip s ++ w.
Proof.
  destruct (lstrip_decomp (rev s)) as [w [Hw E]].
  exists (rev w). rewrite forallb_rev. split; [exact Hw|].
  unfold rstrip. rewrite <- rev_app_distr, <- E. now rewrite rev_involutive.
Qed.

Lemma strip_decomp (s : pystr) :
  exists w1 w2, forallb isspace w1 = true /\ forallb isspace w2 = true
                /\ s = w1 ++ strip s ++ w2.
Proof.
  destruct (lstrip_decomp s) as [w1 [H1 E1]].
  destruct (rstrip_decomp (lstrip s)) as [w2 [H2 E2]].
  exists w1, w2. unfold strip. rewrite <- E2. auto.
Qed.

Lemma strip_lstrip_app_ws (z e : pystr) :
  forallb isspace e = true -> strip (z ++ e) = strip z.
Proof.
  intros He. unfold strip. induction z as [|c z IH].
  - cbn [app]. now rewrite (lstrip_ws e He).
  - cbn [app lstrip]. destruct (isspace c); [exact IH|].
    exact (rstrip_app_ws (c :: z) e He).
Qed.

Lemma isspace_sp : isspace " " = true.
Proof. reflexivity. Qed.

Lemma lstrip_squeeze (s : pystr) (b b' : bool) :
  lstrip (squeeze b s) = lstrip (squeeze b' s).
Proof.
  destruct s as [|c s]; [reflexivity|]. cbn [squeeze].
  destruct (isspace c); [|reflexivity].
  destruct b, b'; cbn [lstrip]; rewrite ?isspace_sp; reflexivity.
Qed.

Lemma lstrip_squeeze_ws_app (w y : pystr) (b b' : bool) :
  forallb isspace w = true ->
  lstrip (squeeze b (w ++ y)) = lstrip (squeeze b' y).
Proof.
  revert b; induction w as [|c w IH]; intros b H.
  - apply lstrip_squeeze.
  - cbn [forallb] in H. apply andb_true_iff in H as [Hc H].
    cbn [app squeeze]. rewrite Hc.
    destruct b; cbn [lstrip]; rewrite ?isspace_sp; now apply IH.
Qed.

Lemma squeeze_ws (w : pystr) (b : bool) :
  forallb isspace w = true -> forallb isspace (squeeze b w) = true.
Proof.
  revert b; induction w as [|c w IH]; intros b H; [reflexivity|].
  cbn [forallb] in H. apply andb_true_iff in H as [Hc H].
  cbn [squeeze]. rewrite Hc.
  destruct b; cbn [forallb]; rewrite ?isspace_sp; now apply IH.
Qed.

Lemma squeeze_app_ws (y w : pystr) (b : bool) :
  forallb isspace w = true ->
  exists e, forallb isspace e = true /\ squeeze b (y ++ w) = squeeze b y ++ e.
Proof.
  intros H. revert b; induction y as [|c y IH]; intros b.
  - exists (squeeze b w). split; [now apply squeeze_ws | reflexivity].
  - cbn [app squeeze]. destruct (isspace c).
    + destruct (IH true) as [e [He ->]]. exists e. now destruct b.
    + destruct (IH false) as [e [He ->]]. exists e. auto.
Qed.

(** Whitespace around a text does not change its normal form. *)
Lemma normalize_pad (w1 g w2 : pystr) :
  forallb isspace w1 = true -> forallb isspace w2 = true ->
  normalize (w1 ++ g ++ w2) = normalize g.
Proof.
  intros H1 H2. unfold normalize, collapse_runs.
  destruct (squeeze_app_ws g w2 false H2) as [e [He E]].
  unfold strip at 1.
  rewrite (lstrip_squeeze_ws_app w1 (g ++ w2) false false H1), E.
  now apply strip_lstrip_app_ws.
Qed.

Lemma squeeze_idem (s : pystr) :
  (forall b, squeeze false (squeeze b s) = squeeze b s)
  /\ squeeze true (squeeze true s) = squeeze true s.
Proof.
  induction s as [|c s [IH1 IH2]]; [split; reflexivity|].
  cbn [squeeze]. destruct (isspace c) eqn:Hc.
  - split; [intros [|]|]; auto.
    cbn [squeeze]. rewrite isspace_sp. now rewrite IH2.
  - split; [intros b|]; cbn [squeeze]; rewrite Hc, IH1; reflexivity.
Qed.

Lemma normalize_idem (s : pystr) : normalize (normalize s) = normalize s.
Proof.
  unfold normalize at 2 3. unfold collapse_runs.
  destruct (strip_decomp (squeeze false s)) as [w1 [w2 [H1 [H2 E]]]].
  rewrite <- (normalize_pad w1 (strip (squeeze false s)) w2 H1 H2), <- E.
  unfold normalize, collapse_runs.
  now rewrite (proj1 (squeeze_idem s) false).
Qed.

Lemma forallb_lstrip (p : ascii -> bool) (s : pystr) :
  forallb p s = true -> forallb p (lstrip s) = true.
Proof.
  induction s as [|c s IH]; [auto|]. cbn [lstrip]. destruct (isspace c); auto.
  cbn [forallb]. intros H. apply andb_true_iff in H as [_ H]. auto.
Qed.

Lemma forallb_squeeze (s : pystr) (b : bool) :
  forallb (set_not "<") s = true -> forallb (set_not "<") (squeeze b s) = true.
Proof.
  revert b; induction s as [|c s IH]; intros b H; [reflexivity|].
  cbn [forallb] in H. apply andb_true_iff in H as [Hc H].
  cbn [squeeze]. destruct (isspace c); [destruct b|]; cbn [forallb];
    rewrite ?Hc; cbn [andb]; auto.
  now rewrite IH.
Qed.

Lemma normalize_no_lt (s : pystr) :
  forallb (set_not "<") s = true -> forallb (set_not "<") (normalize s) = true.
Proof.
  intros H. unfold normalize, strip, rstrip, collapse_runs.
  rewrite forallb_rev. apply forallb_lstrip. rewrite forallb_rev.
  apply forallb_lstrip. now apply forallb_squeeze.
Qed.

(** *** The callback on a match *)


Lemma repl_groups (m : Match) (g0 g1 g2 g3 : pystr) :
  group m 0 = Some g0 -> group m 1 = Some g1 ->
  group m 2 = Some g2 -> group m 3 = Some g3 ->
  repl m = Some (replacement g0 g1 g2 g3).
Proof.
  intros E0 E1 E2 E3. unfold repl, replacement.
  rewrite E1, E2, E3, E0.
  destruct (mem (lower g1) VOID || mem (lower g1) EXCLUDED); [reflexivity|].
  cbn match. unfold COLLAPSE_WHITESPACE, TRIM_TEXT.
  rewrite sub_eq, collapse_sub.
  change (strip (collapse_runs g3)) with (normalize g3).
  destruct (normalize g3); [reflexivity|].
  f_equal. norm_app. reflexivity.
Qed.

Lemma pattern_match (b a : pystr) (st' : state) :
  exec pattern (mkState b a []) = Some st' ->
  exists t attrs w1 inner w2 rest,
    wf_span t attrs (w1 ++ inner ++ w2) = true /\
    forallb isspace w1 = true /\ forallb isspace w2 = true /\
    nonempty inner = true /\
    a = span_text t attrs (w1 ++ inner ++ w2) ++ rest /\
    after st' = rest /\
    before st' = b ++ span_text t attrs (w1 ++ inner ++ w2) /\
    group (match_of b st') 0 = Some (span_text t attrs (w1 ++ inner ++ w2)) /\
    group (match_of b st') 1 = Some t /\
    group (match_of b st') 2 = Some attrs /\
    group (match_of b st') 3 = Some inner.
Proof.
  intros H. apply pattern_sound in H.
  destruct H as [t [attrs [w1 [inner [w2 [rest H]]]]]].
  destruct H as [Hwf [H1 [H2 [Hn [Ea [Eb [Er [G1 [G2 G3]]]]]]]]].
  exists t, attrs, w1, inner, w2, rest.
  repeat split; try assumption.
  unfold match_of, group. cbn [m_string m_start m_end]. f_equal.
  rewrite Eb, Er.
  apply substring_at with (x := b) (z := rest).
  - now rewrite <- app_assoc.
  - reflexivity.
  - now rewrite length_app.
Qed.

Lemma replacement_reflowed (t attrs w1 inner w2 : pystr) :
  forallb isspace w1 = true -> forallb isspace w2 = true ->
  replacement (span_text t attrs (w1 ++ inner ++ w2)) t attrs inner
  = reflowed t attrs (w1 ++ inner ++ w2).
Proof.
  intros H1 H2. unfold replacement, reflowed.
  now rewrite (normalize_pad w1 inner w2 H1 H2).
Qed.

(** What the scan does at one position. *)
Lemma scan_span (b t attrs content rest : pystr) :
  wf_span t attrs content = true ->
  exists st',
    exec pattern (mkState b (span_text t attrs content ++ rest) []) = Some st'
    /\ after st' = rest
    /\ before st' = b ++ span_text t attrs content
    /\ repl (match_of b st') = Some (reflowed t attrs content).
Proof.
  intros Hwf.
  destruct (exec pattern (mkState b (span_text t attrs content ++ rest) []))
    as [st'|] eqn:E; [|now apply pattern_complete in E].
  exists st'. split; [reflexivity|].
  destruct (pattern_match _ _ _ E)
    as [t' [attrs' [w1 [inner [w2 [rest' H]]]]]].
  destruct H as [Hwf' [H1 [H2 [Hn [Ea [Er [Eb [G0 [G1 [G2 G3]]]]]]]]]].
  destruct (span_unique _ _ _ _ _ _ _ _ Hwf Hwf' Ea) as [-> [-> [Ec ->]]].
  rewrite (repl_groups _ _ _ _ _ G0 G1 G2 G3), replacement_reflowed by assumption.
  rewrite Eb, Er, <- Ec. auto.
Qed.

Lemma has_span_exec (b a : pystr) :
  has_span a <-> exec pattern (mkState b a []) <> None.
Proof.
  split.
  - intros [t [attrs [content [rest [Hwf ->]]]]]. now apply pattern_complete.
  - destruct (exec pattern (mkState b a [])) as [st'|] eqn:E; [|congruence].
    intros _. destruct (pattern_match _ _ _ E)
      as [t [attrs [w1 [inner [w2 [rest H]]]]]].
    exists t, attrs, (w1 ++ inner ++ w2), rest. tauto.
Qed.

Lemma span_text_length (b t attrs content : pystr) :
  (length (b ++ span_text t attrs content) =? length b) = false.
Proof.
  apply Nat.eqb_neq. unfold span_text. rewrite length_app. cbn [str list_ascii_of_string app length]. lia.
Qed.


(** The scan of the script follows [Reflow], and always returns. *)
Lemma transform_at_reflow (a b : pystr) :
  exists out, transform_at b a = Some out /\ Reflow a out.
Proof.
  remember (length a) as n eqn:En.
  revert a b En; induction n as [n IH] using lt_wf_ind; intros a b En.
  unfold transform_at. rewrite sub_at_eq.
  destruct (exec pattern (mkState b a [])) as [st'|] eqn:E.
  - assert (Hs : has_span a) by (apply (has_span_exec b); congruence).
    destruct Hs as [t [attrs [content [rest [Hwf ->]]]]].
    destruct (scan_span b t attrs content rest Hwf) as [st2 [E2 [Er [Eb Hr]]]].
    rewrite E in E2. injection E2 as <-.
    rewrite Hr, Eb, Er, span_text_length.
    destruct (IH (length rest)) with (a := rest) (b := b ++ span_text t attrs content)
      as [out [Ho Hre]]; [|reflexivity|].
    + subst n. rewrite length_app. unfold span_text.
      cbn [str list_ascii_of_string app length]. lia.
    + fold (transform_at (b ++ span_text t attrs content) rest). rewrite Ho.
      eexists. split; [reflexivity|]. now constructor.
  - assert (Hs : ~ has_span a) by (rewrite (has_span_exec b); congruence).
    destruct a as [|c a].
    + exists []. split; [reflexivity | constructor].
    + destruct (IH (length a)) with (a := a) (b := b ++ [c])
        as [out [Ho Hre]]; [subst n; cbn [length]; lia | reflexivity |].
      fold (transform_at (b ++ [c]) a). rewrite Ho.
      eexists. split; [reflexivity|]. now constructor.
Qed.

(** *** Idempotence *)



Lemma span_text_tail (t attrs content : pystr) :
  span_text t attrs content = ("<"%char :: t ++ attrs) ++ tail_text t content.
Proof. unfold span_text, tail_text. norm_app. reflexivity. Qed.

Lemma kept_tail_reflowed (t attrs content : pystr) :
  kept_tail t content -> reflowed t attrs content = span_text t attrs content.
Proof.
  unfold reflowed. intros [H|[H|[Ht Hc]]].
  - now rewrite H.
  - rewrite H. now destruct (mem (lower t) VOID || mem (lower t) EXCLUDED).
  - destruct (mem (lower t) VOID || mem (lower t) EXCLUDED); [reflexivity|].
    destruct (normalize content) as [|x text] eqn:E; [reflexivity|].
    rewrite Ht. rewrite Hc, ?E. unfold span_text. norm_app. reflexivity.
Qed.

Lemma span_cut (t attrs content rest : pystr) :
  span_text t attrs content ++ rest
  = ("<"%char :: t ++ attrs)
      ++ ">"%char :: (content ++ "<"%char :: ("/"%char :: t) ++ ">"%char :: rest).
Proof. unfold span_text. norm_app. reflexivity. Qed.

Lemma tail_cut (t content out : pystr) :
  tail_text t content ++ out
  = ">"%char :: (content ++ "<"%char :: ("/"%char :: t) ++ ">"%char :: out).
Proof. unfold tail_text. norm_app. reflexivity. Qed.

Lemma open_no_gt (t attrs : pystr) :
  tag_name t = true -> forallb (set_not ">") attrs = true ->
  forallb (set_not ">") ("<"%char :: t ++ attrs) = true.
Proof.
  intros Ht Ha. cbn [forallb]. now rewrite forallb_app, tag_name_no_gt, Ha.
Qed.

Lemma close_no_gt (t : pystr) :
  forallb (set_not ">") t = true ->
  forallb (set_not ">") ("/"%char :: t) = true.
Proof. intros Ht. cbn [forallb]. now rewrite Ht. Qed.

Lemma close_no_lt (t : pystr) :
  forallb (set_not "<") t = true ->
  forallb (set_not "<") ("/"%char :: t) = true.
Proof. intros Ht. cbn [forallb]. now rewrite Ht. Qed.

(** A span that runs into a tail ends with that tail. *)
Lemma span_into_tail (x T C out t attrs content rest : pystr) :
  wf_span t attrs content = true ->
  forallb (set_not ">") x = true ->
  forallb (set_not ">") T = true ->
  forallb (set_not "<") C = true ->
  span_text t attrs content ++ rest = x ++ tail_text T C ++ out ->
  t = T /\ content = C.
Proof.
  intros Hwf Hx HT HC E.
  apply wf_span_inv in Hwf as [Ht [_ [Ha [_ Hc]]]].
  rewrite span_cut, tail_cut in E.
  apply (first_cut_unique _ _ _ _ _ (open_no_gt _ _ Ht Ha) Hx) in E as [_ E].
  apply (first_cut_unique _ _ _ _ _ Hc HC) in E as [-> E].
  apply (first_cut_unique _ _ _ _ _ (close_no_gt _ (tag_name_no_gt _ Ht))
           (close_no_gt _ HT)) in E as [E _].
  injection E as ->. auto.
Qed.

(** A span that starts before a [>] and reaches a [<] that opens a tag lies
    before that [<]. *)
Lemma span_inside (l1 l2 X t attrs content rest : pystr) (x : ascii) :
  wf_span t attrs content = true ->
  forallb (set_not ">") l1 = true ->
  x <> "/"%char ->
  span_text t attrs content ++ rest
  = (l1 ++ ">"%char :: l2) ++ "<"%char :: x :: X ->
  exists l3, l1 ++ ">"%char :: l2 = span_text t attrs content ++ l3.
Proof.
  intros Hwf Hl1 Hx E.
  apply wf_span_inv in Hwf as [Ht [_ [Ha [_ Hc]]]].
  rewrite span_cut in E.
  rewrite <- (app_assoc l1 (">"%char :: l2)) in E.
  change ((">"%char :: l2) ++ "<"%char :: x :: X)
    with (">"%char :: (l2 ++ "<"%char :: x :: X)) in E.
  apply (first_cut_unique _ _ _ _ _ (open_no_gt _ _ Ht Ha) Hl1) in E as [E1 E].
  symmetry in E. apply (free_prefix _ _ _ _ _ Hc) in E.
  destruct E as [[k [-> E]]|[k [Ek E]]].
  - symmetry in E.
    apply (free_prefix _ _ _ _ _ (close_no_gt _ (tag_name_no_gt _ Ht))) in E.
    destruct E as [[k2 [-> _]]|[k2 [E E2]]].
    + exists k2. rewrite <- E1, span_cut. reflexivity.
    + exfalso. destruct k2 as [|y k2]; [discriminate|].
      injection E2 as <- _.
      pose proof (close_no_lt _ (tag_name_no_lt _ Ht)) as Hno.
      rewrite E, forallb_app in Hno. cbn [forallb] in Hno.
      rewrite set_not_self in Hno. cbn [andb] in Hno.
      now rewrite andb_false_r in Hno.
  - exfalso. destruct k as [|y k].
    + injection E as E _. auto.
    + injection E as <- _. rewrite Ek, forallb_app in Hc.
      cbn [forallb] in Hc. rewrite set_not_self in Hc.
      now rewrite andb_false_r in Hc.
Qed.

Lemma lower_idem (s : pystr) : lower (lower s) = lower s.
Proof.
  unfold lower. rewrite map_map. apply map_ext. apply lower_char_idem.
Qed.

Lemma lower_tag_no_gt (t : pystr) :
  forallb set_tag t = true -> forallb (set_not ">") (lower t) = true.
Proof.
  induction t as [|c t IH]; [reflexivity|]. cbn [forallb lower map].
  rewrite !andb_true_iff. intros [Hc Ht].
  split; [now apply lower_char_tag_not_gt | now apply IH].
Qed.

Lemma lower_tag_no_lt (t : pystr) :
  forallb set_tag t = true -> forallb (set_not "<") (lower t) = true.
Proof.
  induction t as [|c t IH]; [reflexivity|]. cbn [forallb lower map].
  rewrite !andb_true_iff. intros [Hc Ht].
  split; [now apply lower_char_tag_not_lt | now apply IH].
Qed.

Lemma lower_char_az_not_slash (c : ascii) :
  set_az c = true -> lower_char c <> "/"%char.
Proof. each_char c. Qed.

(** The text a span is replaced with: an open tag with the same attribute
    text, and a tail that is kept from then on. *)
Lemma reflowed_shape (t attrs content : pystr) :
  wf_span t attrs content = true ->
  exists T C,
    reflowed t attrs content = ("<"%char :: T ++ attrs) ++ tail_text T C
    /\ kept_tail T C
    /\ forallb (set_not ">") T = true
    /\ forallb (set_not "<") T = true
    /\ forallb (set_not "<") C = true
    /\ exists x tl, T = x :: tl /\ x <> "/"%char.
Proof.
  intros Hwf. apply wf_span_inv in Hwf as [Ht [_ [Ha [_ Hc]]]].
  assert (Hsame : forall K : kept_tail t content,
    exists T C,
      span_text t attrs content = ("<"%char :: T ++ attrs) ++ tail_text T C
      /\ kept_tail T C
      /\ forallb (set_not ">") T = true
      /\ forallb (set_not "<") T = true
      /\ forallb (set_not "<") C = true
      /\ exists x tl, T = x :: tl /\ x <> "/"%char).
  { intros K. exists t, content. rewrite span_text_tail.
    repeat split; auto using tag_name_no_gt, tag_name_no_lt.
    destruct t as [|x tl]; [discriminate|]. exists x, tl. split; [reflexivity|].
    cbn [tag_name] in Ht. apply andb_true_iff in Ht as [Hx _].
    now apply set_az_not_slash. }
  unfold reflowed.
  destruct (mem (lower t) VOID || mem (lower t) EXCLUDED) eqn:Hm.
  { apply Hsame. now left. }
  destruct (normalize content) as [|y text] eqn:En.
  { apply Hsame. right. now left. }
  exists (lower t), (nl :: INDENT ++ (y :: text) ++ [nl]).
  assert (Hn : normalize (nl :: INDENT ++ (y :: text) ++ [nl]) = y :: text).
  { change (nl :: INDENT ++ (y :: text) ++ [nl])
      with ((nl :: INDENT) ++ (y :: text) ++ [nl]).
    rewrite normalize_pad by reflexivity.
    rewrite <- En. apply normalize_idem. }
  repeat split.
  - unfold tail_text. norm_app. reflexivity.
  - right. right. split; [apply lower_idem|]. now rewrite Hn.
  - apply lower_tag_no_gt. now apply tag_name_tag.
  - apply lower_tag_no_lt. now apply tag_name_tag.
  - change (nl :: INDENT ++ (y :: text) ++ [nl])
      with ((nl :: INDENT) ++ (y :: text) ++ [nl]).
    rewrite !forallb_app. rewrite <- En, normalize_no_lt by assumption.
    reflexivity.
  - destruct t as [|x tl]; [discriminate|].
    exists (lower_char x), (lower tl). split; [reflexivity|].
    cbn [tag_name] in Ht. apply andb_true_iff in Ht as [Hx _].
    now apply lower_char_az_not_slash.
Qed.

Lemma stable_suffix (p x : pystr) : stable (p ++ x) -> stable x.
Proof.
  intros H q t attrs content rest E Hwf.
  apply (H (p ++ q) t attrs content rest); [|assumption].
  now rewrite E, app_assoc.
Qed.

Lemma stable_reflow (x out : pystr) : Reflow x out -> stable x -> out = x.
Proof.
  induction 1 as [|t attrs content rest out Hwf Hr IH|c rest out Hn Hr IH];
    intros Hs.
  - reflexivity.
  - rewrite (Hs [] t attrs content rest eq_refl Hwf). f_equal.
    apply IH. exact (stable_suffix _ _ Hs).
  - f_equal. apply IH. exact (stable_suffix [c] rest Hs).
Qed.

Lemma not_free (x : ascii) (l r : pystr) :
  forallb (set_not x) (l ++ x :: r) = true -> False.
Proof.
  rewrite forallb_app. cbn [forallb]. rewrite set_not_self.
  rewrite andb_false_r. discriminate.
Qed.

Lemma span_head (t attrs content rest : pystr) :
  wf_span t attrs content = true ->
  exists x tl, span_text t attrs content ++ rest = "<"%char :: x :: tl
               /\ set_az x = true.
Proof.
  intros Hwf. apply wf_span_inv in Hwf as [Ht _].
  destruct t as [|x t]; [discriminate|].
  cbn [tag_name] in Ht. apply andb_true_iff in Ht as [Hx _].
  unfold span_text. norm_app. eauto.
Qed.

Lemma tail_kept (x T C out t attrs content rest : pystr) :
  wf_span t attrs content = true ->
  forallb (set_not ">") x = true ->
  forallb (set_not ">") T = true ->
  forallb (set_not "<") C = true ->
  kept_tail T C ->
  span_text t attrs content ++ rest = x ++ tail_text T C ++ out ->
  reflowed t attrs content = span_text t attrs content.
Proof.
  intros Hwf Hx HT HC K E.
  destruct (span_into_tail _ _ _ _ _ _ _ _ Hwf Hx HT HC E) as [-> ->].
  now apply kept_tail_reflowed.
Qed.

(** No span starts inside a tail. *)
Lemma no_span_in_tail (k l T C out t attrs content rest : pystr) :
  wf_span t attrs content = true ->
  forallb (set_not "<") T = true ->
  forallb (set_not "<") C = true ->
  tail_text T C = k ++ l -> l <> [] ->
  span_text t attrs content ++ rest = l ++ out -> False.
Proof.
  intros Hwf HT HC E Hl Es.
  destruct (span_head t attrs content rest Hwf) as [x [tl [Eh Hx]]].
  rewrite Eh in Es. destruct l as [|z l]; [contradiction|].
  injection Es as <- Es.
  assert (Ek : k ++ "<"%char :: l
               = (">"%char :: C) ++ "<"%char :: ("/"%char :: T) ++ [">"%char]).
  { rewrite <- E. unfold tail_text. norm_app. reflexivity. }
  assert (HC' : forallb (set_not "<") (">"%char :: C) = true)
    by (cbn [forallb]; now rewrite HC).
  apply (free_prefix _ _ _ _ _ HC') in Ek.
  destruct Ek as [[k' [_ Ek]]|[k' [Ek1 Ek2]]].
  - assert (Hno : forallb (set_not "<") (("/"%char :: T) ++ [">"%char]) = true).
    { rewrite forallb_app. cbn [forallb]. now rewrite HT. }
    rewrite Ek in Hno. now apply not_free in Hno.
  - destruct k' as [|y k'].
    + injection Ek2 as ->. cbn [app] in Es.
      injection Es as -> _. discriminate.
    + injection Ek2 as <- _. rewrite Ek1 in HC'. now apply not_free in HC'.
Qed.

(** The scan leaves a text in which every span is kept, also behind a
    prefix [v] in which no span starts. *)
Lemma reflow_stable (s out : pystr) :
  Reflow s out ->
  forall v,
    (forall v1 v2, v = v1 ++ v2 -> v2 <> [] -> ~ has_span (v2 ++ s)) ->
    stable (v ++ out).
Proof.
  induction 1 as [|t attrs content rest out Hwf Hr IH|c rest out Hn Hr IH];
    intros v Hv.
  - intros p t attrs content rest E Hwf. exfalso.
    rewrite app_nil_r in E.
    apply (Hv p (span_text t attrs content ++ rest) E).
    + destruct (span_head t attrs content rest Hwf) as [x [tl [-> _]]].
      discriminate.
    + exists t, attrs, content, (rest ++ []). now rewrite app_assoc.
  - assert (Hout : stable out).
    { apply (IH []). intros v1 v2 E Hv2. symmetry in E.
      apply app_eq_nil in E as [_ ->]. contradiction. }
    destruct (reflowed_shape t attrs content Hwf)
      as [T [C [ER [K [HT [HT' [HC [x [tl [ET Hx]]]]]]]]]].
    assert (HP : forallb (set_not ">") ("<"%char :: T ++ attrs) = true).
    { apply wf_span_inv in Hwf as [_ [_ [Ha _]]].
      cbn [forallb]. now rewrite forallb_app, HT, Ha. }
    intros p t' a' c' rest' E Hwf'. rewrite ER in E.
    apply app_eq_app in E as [l [[Ev EZ]|[Ep ER']]].
    + destruct (first_cut ">" l) as [Hl|[l1 [l2 [-> Hl1]]]].
      * apply (tail_kept (l ++ "<"%char :: T ++ attrs) T C out
                 t' a' c' rest' Hwf'); auto.
        -- now rewrite forallb_app, Hl, HP.
        -- rewrite EZ. norm_app. reflexivity.
      * exfalso.
        assert (E2 : span_text t' a' c' ++ rest'
                     = (l1 ++ ">"%char :: l2)
                         ++ "<"%char :: x :: (tl ++ attrs) ++ tail_text T C ++ out).
        { rewrite EZ, ET. norm_app. reflexivity. }
        destruct (span_inside _ _ _ _ _ _ _ _ Hwf' Hl1 Hx E2) as [l3 El].
        apply (Hv p (l1 ++ ">"%char :: l2) Ev).
        -- destruct l1; discriminate.
        -- exists t', a', c', (l3 ++ span_text t attrs content ++ rest).
           split; [assumption|]. rewrite El. norm_app. reflexivity.
    + apply app_eq_app in ER' as [l' [[ER1 EZ]|[El Eout]]].
      * apply app_eq_app in ER1 as [k [[EP El']|[El Et]]].
        -- apply (tail_kept k T C out t' a' c' rest' Hwf'); auto.
           ++ rewrite EP, forallb_app in HP.
              now apply andb_true_iff in HP as [_ HP].
           ++ rewrite EZ, El'. norm_app. reflexivity.
        -- destruct l' as [|z l'].
           ++ apply (Hout [] t' a' c' rest'); [|assumption]. exact (eq_sym EZ).
           ++ exfalso.
              apply (no_span_in_tail k (z :: l') T C out t' a' c' rest' Hwf');
                auto. discriminate.
      * apply (Hout l' t' a' c' rest'); assumption.
  - change (v ++ c :: out) with (v ++ [c] ++ out). rewrite app_assoc.
    apply IH. intros v1 v2 E Hv2.
    destruct (exists_last Hv2) as [v2' [c' ->]].
    rewrite app_assoc in E. apply app_inj_tail in E as [-> <-].
    rewrite <- app_assoc. cbn [app].
    destruct v2' as [|y v2']; [exact Hn|].
    apply (Hv v1 (y :: v2') eq_refl). discriminate.
Qed.

Lemma reflow_out_stable (s out : pystr) : Reflow s out -> stable out.
Proof.
  intros H. apply (reflow_stable s out H []).
  intros v1 v2 E Hv2. symmetry in E.
  apply app_eq_nil in E as [_ ->]. contradiction.
Qed.

Lemma reflow_inv (a out : pystr) :
  Reflow a out ->
  (a = [] /\ out = [])
  \/ (exists t attrs content rest out',
        wf_span t attrs content = true
        /\ a = span_text t attrs content ++ rest
        /\ out = reflowed t attrs content ++ out' /\ Reflow rest out')
  \/ (exists c rest out',
        a = c :: rest /\ ~ has_span a /\ out = c :: out' /\ Reflow rest out').
Proof.
  intros [|t attrs content rest out' Hwf Hr|c rest out' Hn Hr].
  - now left.
  - right. left. exists t, attrs, content, rest, out'. auto.
  - right. right. exists c, rest, out'. auto.
Qed.

Lemma has_span_intro (t attrs content rest : pystr) :
  wf_span t attrs content = true -> has_span (span_text t attrs content ++ rest).
Proof. intros H. exists t, attrs, content, rest. auto. Qed.

Lemma span_not_nil (t attrs content rest : pystr) :
  span_text t attrs content ++ rest <> [].
Proof. unfold span_text. discriminate. Qed.

(** The scan is a function of the text. *)
Lemma reflow_det (a out1 out2 : pystr) :
  Reflow a out1 -> Reflow a out2 -> out1 = out2.
Proof.
  intros H; revert out2.
  induction H as [|t attrs content rest out Hwf Hr IH|c rest out Hn Hr IH];
    intros out2 H2; apply reflow_inv in H2;
    destruct H2 as [[Ea ->]|[[t' [a' [c' [r' [o' [Hwf' [Ea [-> Hr']]]]]]]]
                            |[c' [r' [o' [Ea [Hn' [-> Hr']]]]]]]].
  - reflexivity.
  - symmetry in Ea. now apply span_not_nil in Ea.
  - discriminate.
  - now apply span_not_nil in Ea.
  - destruct (span_unique _ _ _ _ _ _ _ _ Hwf Hwf' Ea) as [-> [-> [-> ->]]].
    f_equal. now apply IH.
  - exfalso. apply Hn'. now apply has_span_intro.
  - discriminate.
  - exfalso. apply Hn. rewrite Ea. now apply has_span_intro.
  - injection Ea as -> ->. f_equal. now apply IH.
Qed.

Lemma transform_at_iff (b a out : pystr) :
  transform_at b a = Some out <-> Reflow a out.
Proof.
  destruct (transform_at_reflow a b) as [out' [E Hr]]. rewrite E. split.
  - now intros [= <-].
  - intros H. f_equal. exact (reflow_det a out' out Hr H).
Qed.

Lemma transform_iff (html out : pystr) :
  transform html = Some out <-> Reflow html out.
Proof. apply (transform_at_iff [] html out). Qed.

Lemma transform_total (html : pystr) : exists out, transform html = Some out.
Proof.
  destruct (transform_at_reflow html []) as [out [E _]]. now exists out.
Qed.

Lemma transform_fixed (html out : pystr) :
  transform html = Some out -> transform out = Some out.
Proof.
  intros H. apply transform_iff in H.
  destruct (transform_total out) as [out' E]. rewrite E. f_equal.
  apply transform_iff in E.
  exact (stable_reflow out out' E (reflow_out_stable html out H)).
Qed.

(** The scan at a span, and at a position where no span starts. *)
Lemma transform_span (t attrs content rest : pystr) :
  wf_span t attrs content = true ->
  transform (span_text t attrs content ++ rest)
  = option_map (app (reflowed t attrs content)) (transform rest).
Proof.
  intros Hwf. destruct (transform_total rest) as [out E]. rewrite E.
  apply transform_iff. constructor; [assumption | now apply transform_iff].
Qed.

Lemma transform_char (c : ascii) (rest : pystr) :
  ~ has_span (c :: rest) ->
  transform (c :: rest) = option_map (cons c) (transform rest).
Proof.
  intros Hn. destruct (transform_total rest) as [out E]. rewrite E.
  apply transform_iff. constructor; [assumption | now apply transform_iff].
Qed.

Lemma no_span_other (c : ascii) (rest : pystr) :
  set_not "<" c = true -> ~ has_span (c :: rest).
Proof.
  intros Hc [t [attrs [content [r [Hwf E]]]]].
  destruct (span_head t attrs content r Hwf) as [x [tl [Eh _]]].
  rewrite Eh in E. injection E as -> _. now rewrite set_not_self in Hc.
Qed.

Lemma no_span_close (rest : pystr) :
  ~ has_span ("<"%char :: "/"%char :: rest).
Proof.
  intros [t [attrs [content [r [Hwf E]]]]].
  destruct (span_head t attrs content r Hwf) as [x [tl [Eh Hx]]].
  rewrite Eh in E. injection E as <- _. discriminate.
Qed.

(** A text without [<] is copied. *)
Lemma transform_copy (u rest : pystr) :
  forallb (set_not "<") u = true ->
  transform (u ++ rest) = option_map (app u) (transform rest).
Proof.
  induction u as [|c u IH]; intros H.
  - cbn [app]. now destruct (transform rest).
  - cbn [forallb] in H. apply andb_true_iff in H as [Hc H].
    cbn [app]. rewrite transform_char by now apply no_span_other.
    rewrite IH by assumption. now destruct (transform rest).
Qed.

(* ------------------------------------------------------------------ *)
(** ** Further facts for the claims *)

Lemma normalize_nil_iff (s : pystr) :
  normalize s = [] <-> forallb isspace s = true.
Proof.
  assert (Hsq : forall s b, forallb isspace (squeeze b s) = forallb isspace s).
  { intros s0; induction s0 as [|c s0 IH]; intros b; [reflexivity|].
    cbn [squeeze forallb]. destruct (isspace c) eqn:Hc.
    - destruct b; cbn [forallb]; rewrite ?isspace_sp, IH; reflexivity.
    - cbn [forallb]. now rewrite Hc. }
  unfold normalize, collapse_runs. split; intros H.
  - destruct (strip_decomp (squeeze false s)) as [w1 [w2 [H1 [H2 E]]]].
    rewrite H in E. cbn [app] in E.
    rewrite <- (Hsq s false), E, forallb_app, H1, H2. reflexivity.
  - unfold strip. rewrite lstrip_ws; [reflexivity|]. now rewrite Hsq.
Qed.

Lemma lower_length (s : pystr) : length (lower s) = length s.
Proof. apply length_map. Qed.

Lemma same_length_app (l1 l2 r1 r2 : pystr) :
  length l1 = length l2 -> l1 ++ r1 = l2 ++ r2 -> l1 = l2.
Proof.
  revert l2; induction l1 as [|a l1 IH]; intros [|b l2] Hl E;
    try discriminate; [reflexivity|].
  injection Hl as Hl. injection E as -> E. f_equal. now apply IH.
Qed.

(** An open tag that is directly followed by a span starts no span. *)
Lemma no_span_nested (u t attrs content rest : pystr) :
  forallb (set_not ">") u = true ->
  wf_span t attrs content = true ->
  ~ has_span ("<"%char :: u ++ ">"%char :: span_text t attrs content ++ rest).
Proof.
  intros Hu Hwf [t' [a' [c' [r' [Hwf' E]]]]].
  destruct (span_head t attrs content rest Hwf) as [x [tl [Eh Hx]]].
  rewrite Eh in E.
  apply wf_span_inv in Hwf' as [Ht' [_ [Ha' [Hn' Hc']]]].
  rewrite span_cut in E. injection E as E.
  apply (first_cut_unique _ _ _ _ _ Hu) in E as [_ E];
    [|rewrite forallb_app, tag_name_no_gt, Ha' by assumption; reflexivity].
  change ("<"%char :: x :: tl) with ([] ++ "<"%char :: x :: tl) in E.
  apply (first_cut_unique "<"%char [] _ c' _ eq_refl Hc') in E as [<- _].
  discriminate.
Qed.

(** A close tag with another name of the same length closes no span. *)
Lemma no_span_other_name (t t2 attrs content rest : pystr) :
  length t = length t2 -> t <> t2 ->
  forallb (set_not ">") t = true ->
  forallb (set_not ">") t2 = true ->
  forallb (set_not ">") attrs = true ->
  forallb (set_not "<") content = true ->
  ~ has_span (("<"%char :: t ++ attrs)
                ++ ">"%char :: (content
                     ++ "<"%char :: ("/"%char :: t2) ++ ">"%char :: rest)).
Proof.
  intros Hl Hne Ht Ht2 Ha Hc [t' [a' [c' [r' [Hwf' E]]]]].
  apply wf_span_inv in Hwf' as [Ht' [_ [Ha' [_ Hc']]]].
  rewrite span_cut in E.
  assert (Hopen : forallb (set_not ">") ("<"%char :: t ++ attrs) = true)
    by (cbn [forallb]; now rewrite forallb_app, Ht, Ha).
  apply (first_cut_unique _ _ _ _ _ Hopen (open_no_gt _ _ Ht' Ha')) in E
    as [E1 E].
  apply (first_cut_unique _ _ _ _ _ Hc Hc') in E as [_ E].
  apply (first_cut_unique _ _ _ _ _ (close_no_gt _ Ht2)
           (close_no_gt _ (tag_name_no_gt _ Ht'))) in E as [E _].
  injection E as <-. injection E1 as E1.
  apply Hne. exact (same_length_app t t2 attrs a' Hl E1).
Qed.

(** Behind its first character, a text whose only [<] opens a close tag
    starts no span. *)
Lemma no_span_inside (u v p q rest : pystr) :
  forallb (set_not "<") u = true ->
  forallb (set_not "<") v = true ->
  q <> [] ->
  p ++ q = u ++ "<"%char :: "/"%char :: v ->
  ~ has_span (q ++ rest).
Proof.
  intros Hu Hv Hq E.
  assert (Hhead : forall (l : pystr) c, forallb (set_not "<") l = true ->
                    forall x y, l = x ++ c :: y -> set_not "<" c = true).
  { intros l c Hl x y ->. rewrite forallb_app in Hl.
    apply andb_true_iff in Hl as [_ Hl]. cbn [forallb] in Hl.
    now apply andb_true_iff in Hl as [Hl _]. }
  apply app_eq_app in E as [l [[E1 E2]|[E1 E2]]].
  - (* p = u ++ l, the close tag = l ++ q *)
    destruct l as [|a l]; cbn [app] in E2.
    + subst q. cbn [app]. apply no_span_close.
    + injection E2 as <- E2. destruct l as [|a l]; cbn [app] in E2.
      * subst q. cbn [app]. now apply no_span_other.
      * injection E2 as <- E2. destruct q as [|c q]; [contradiction|].
        cbn [app]. apply no_span_other.
        exact (Hhead v c Hv l q E2).
  - (* u = p ++ l, q = l ++ the close tag *)
    subst q. destruct l as [|c l].
    + cbn [app]. apply no_span_close.
    + cbn [app]. apply no_span_other.
      exact (Hhead u c Hu p l E1).
Qed.

(** Where a text stripped of whitespace starts and ends. *)
Lemma lstrip_head (s : pystr) : isspace (hd "x"%char (lstrip s)) = false.
Proof.
  induction s as [|c s IH]; [reflexivity|]. cbn [lstrip].
  destruct (isspace c) eqn:Hc; [exact IH | exact Hc].
Qed.

Lemma last_rev (l : pystr) (d : ascii) : last (rev l) d = hd d l.
Proof.
  destruct l as [|a l]; [reflexivity|]. cbn [rev hd]. apply last_last.
Qed.

Lemma rstrip_last (s : pystr) : isspace (last (rstrip s) "x"%char) = false.
Proof. unfold rstrip. rewrite last_rev. apply lstrip_head. Qed.

Lemma rstrip_head (s : pystr) :
  isspace (hd "x"%char s) = false -> isspace (hd "x"%char (rstrip s)) = false.
Proof.
  intros H. destruct (rstrip_decomp s) as [w [_ E]].
  destruct (rstrip s) as [|c r]; [reflexivity|].
  rewrite E in H. exact H.
Qed.

Lemma rstrip_keeps (t : pystr) :
  isspace (last t "x"%char) = false -> rstrip t = t.
Proof.
  intros H. unfold rstrip. rewrite <- (rev_involutive t) at 2. f_equal.
  rewrite <- (rev_involutive t), last_rev in H.
  destruct (rev t) as [|c r]; [reflexivity|].
  cbn [hd] in H. cbn [lstrip]. now rewrite H.
Qed.

Lemma lstrip_keeps (t : pystr) :
  isspace (hd "x"%char t) = false -> lstrip t = t.
Proof.
  destruct t as [|c t]; [reflexivity|]. cbn [hd lstrip]. now intros ->.
Qed.

Lemma strip_trimmed (s : pystr) : trimmed s (strip s).
Proof.
  destruct (strip_decomp s) as [w1 [w2 [H1 [H2 E]]]].
  exists w1, w2. repeat split; auto.
  - unfold strip. apply rstrip_head, lstrip_head.
  - unfold strip. apply rstrip_last.
Qed.

Lemma trimmed_strip (s t : pystr) : trimmed s t -> strip s = t.
Proof.
  intros [w1 [w2 [H1 [H2 [-> [Hh Hl]]]]]].
  unfold strip. rewrite lstrip_ws_app by assumption.
  destruct t as [|c t].
  - cbn [app]. now rewrite lstrip_ws.
  - cbn [hd] in Hh. cbn [app lstrip]. rewrite Hh.
    change (c :: t ++ w2) with ((c :: t) ++ w2).
    rewrite rstrip_app_ws by assumption. now apply rstrip_keeps.
Qed.

Section ScriptFacts.

Variable world : Type.
Variable path : Type.
Variable glob : pystr -> world -> option (list path).
Variable sorted : list path -> list path.
Variable is_file : path -> world -> option bool.
Variable suffix : path -> pystr.
Variable read_text : path -> world -> option pystr.
Variable write_text : path -> pystr -> world -> ran world.

Lemma each_arg_app (args1 args2 : list pystr) (w : world) :
  each_arg world path glob sorted is_file suffix read_text write_text
    (args1 ++ args2) w
  = and_next world
      (each_arg world path glob sorted is_file suffix read_text write_text
         args1 w)
      (each_arg world path glob sorted is_file suffix read_text write_text
         args2).
Proof.
  revert w; induction args1 as [|arg args1 IH]; intros w; [reflexivity|].
  cbn [app each_arg]. destruct (glob arg w) as [found|]; [|reflexivity].
  destruct (each_path world path is_file suffix read_text write_text
              (sorted found) w) as [w'|w']; [apply IH | reflexivity].
Qed.

Hypothesis calm : never_raises world path glob is_file read_text write_text.

Lemma process_file_returns (p : path) (w : world) :
  exists w', process_file world path read_text write_text p w = Went world w'.
Proof.
  destruct calm as [_ [_ [R W]]]. unfold process_file.
  destruct (read_text p w) as [html|] eqn:E; [|now apply R in E].
  destruct (transform_total html) as [out ->].
  destruct (negb (pystr_eqb out html)); [apply W | eauto].
Qed.

Lemma each_path_returns (ps : list path) (w : world) :
  exists w',
    each_path world path is_file suffix read_text write_text ps w
    = Went world w'.
Proof.
  destruct calm as [_ [F _]].
  revert w; induction ps as [|p ps IH]; intros w; cbn [each_path]; [eauto|].
  unfold wanted. destruct (is_file p w) as [regular|] eqn:E; [|now apply F in E].
  destruct (regular && pystr_eqb (lower (suffix p)) (str ".html")); [|apply IH].
  destruct (process_file_returns p w) as [w' ->]. apply IH.
Qed.

Lemma each_arg_returns (args : list pystr) (w : world) :
  exists w',
    each_arg world path glob sorted is_file suffix read_text write_text args w
    = Went world w'.
Proof.
  revert w; induction args as [|arg args IH]; intros w; cbn [each_arg]; [eauto|].
  destruct (glob arg w) as [found|] eqn:E; [|now apply (proj1 calm) in E].
  destruct (each_path_returns (sorted found) w) as [w' ->]. apply IH.
Qed.

End ScriptFacts.

(* ------------------------------------------------------------------ *)
(** ** The claims *)

(** C1, as the code has it.  On a qualifying match (the lower-cased tag
    name in neither set, the inner text not empty once collapsed and
    trimmed) the callback returns a block whose open-tag and close-tag
    literals both carry the tag name in lower case, with the attribute text
    as it was; so does [transform] at every such span of a document, and
    [transform] of "<P>hi</P>" is "<p>", "  hi", "</p>" on three lines. *)
Theorem C1_tag_lowercased :
  (forall m g0 tag attrs inner,
      group m 0 = Some g0 -> group m 1 = Some tag ->
      group m 2 = Some attrs -> group m 3 = Some inner ->
      mem (lower tag) VOID || mem (lower tag) EXCLUDED = false ->
      nonempty (normalize inner) = true ->
      repl m
      = Some ((str "<" ++ lower tag ++ attrs ++ str ">")
              ++ [nl] ++ INDENT ++ normalize inner ++ [nl]
              ++ (str "</" ++ lower tag ++ str ">")))
  /\ (forall t attrs content rest,
         wf_span t attrs content = true ->
         mem (lower t) VOID || mem (lower t) EXCLUDED = false ->
         nonempty (normalize content) = true ->
         transform (span_text t attrs content ++ rest)
         = option_map
             (app ((str "<" ++ lower t ++ attrs ++ str ">")
                   ++ [nl] ++ INDENT ++ normalize content ++ [nl]
                   ++ (str "</" ++ lower t ++ str ">")))
             (transform rest))
  /\ transform (str "<P>hi</P>")
     = Some (str "<p>" ++ [nl] ++ str "  hi" ++ [nl] ++ str "</p>").
Proof.
  split; [|split; [|reflexivity]].
  - intros m g0 tag attrs inner E0 E1 E2 E3 Hm Hn.
    rewrite (repl_groups m g0 tag attrs inner E0 E1 E2 E3).
    unfold replacement. rewrite Hm.
    destruct (normalize inner); [discriminate|].
    f_equal. norm_app. reflexivity.
  - intros t attrs content rest Hwf Hm Hn.
    rewrite transform_span by assumption. unfold reflowed. rewrite Hm.
    destruct (normalize content); [discriminate|].
    destruct (transform rest); cbn [option_map]; [|reflexivity].
    f_equal. norm_app. reflexivity.
Qed.

Lemma C1_tag_lowercased_witness :
  (exists m,
      match_start pattern (str "<P id=x>hi</P>") = Some m
      /\ group m 0 = Some (str "<P id=x>hi</P>")
      /\ group m 1 = Some (str "P")
      /\ group m 2 = Some (str " id=x")
      /\ group m 3 = Some (str "hi")
      /\ mem (lower (str "P")) VOID || mem (lower (str "P")) EXCLUDED = false
      /\ nonempty (normalize (str "hi")) = true
      /\ repl m
         = Some ((str "<" ++ lower (str "P") ++ str " id=x" ++ str ">")
                 ++ [nl] ++ INDENT ++ normalize (str "hi") ++ [nl]
                 ++ (str "</" ++ lower (str "P") ++ str ">")))
  /\ wf_span (str "P") [] (str "hi") = true
  /\ transform (span_text (str "P") [] (str "hi") ++ str "!")
     = option_map
         (app ((str "<" ++ lower (str "P") ++ [] ++ str ">")
               ++ [nl] ++ INDENT ++ normalize (str "hi") ++ [nl]
               ++ (str "</" ++ lower (str "P") ++ str ">")))
         (transform (str "!")).
Proof.
  split.
  - eexists. split; [vm_compute; reflexivity|].
    do 6 (split; [reflexivity|]).
    apply (proj1 C1_tag_lowercased _ (str "<P id=x>hi</P>")); reflexivity.
  - split; [reflexivity|].
    apply (proj1 (proj2 C1_tag_lowercased)); reflexivity.
Defined.

(** C1 as stated fails: the tag name of "<P>hi</P>" does not come out in
    the spelling of the input. *)
Lemma C1_original_spelling_fails :
  transform (str "<P>hi</P>")
  <> Some (str "<P>" ++ [nl] ++ str "  hi" ++ [nl] ++ str "</P>").
Proof. vm_compute. discriminate. Qed.

(** C2. Applying [transform] to its own result returns that result, for
    every document. *)
Theorem C2_idempotent :
  forall D : pystr, and_then (transform D) transform = transform D.
Proof.
  intros D. destruct (transform D) as [out|] eqn:E; [|reflexivity].
  cbn [and_then]. now apply transform_fixed in E.
Qed.

(** C3, as the code has it.  On a qualifying match the callback returns the
    open tag with the tag name in lower case, a newline, two spaces and the
    inner text with every maximal run of whitespace replaced by one space
    and then without the whitespace at its two ends, a newline, and the
    close tag with the tag name in lower case; so does [transform] at every
    such span of a document.  The collapse is what [re.sub] computes on the
    inner text, and [str.strip] returns the one text that is its argument
    without the whitespace at the two ends.  "<p>a   b", "", "c</p>" on
    three lines becomes "<p>", "  a b c", "</p>", and "<P>a   b</P>"
    becomes "<p>", "  a b", "</p>". *)
Theorem C3_collapse_and_trim :
  (forall inner, sub ws_plus (fun _ => Some (str " ")) inner
                 = Some (collapse_runs inner))
  /\ (forall s t, trimmed s t <-> strip s = t)
  /\ (forall m g0 tag attrs inner text,
         group m 0 = Some g0 -> group m 1 = Some tag ->
         group m 2 = Some attrs -> group m 3 = Some inner ->
         mem (lower tag) VOID || mem (lower tag) EXCLUDED = false ->
         trimmed (collapse_runs inner) text ->
         nonempty text = true ->
         repl m
         = Some ((str "<" ++ lower tag ++ attrs ++ str ">")
                 ++ [nl] ++ str "  " ++ text ++ [nl]
                 ++ (str "</" ++ lower tag ++ str ">")))
  /\ (forall t attrs content rest text,
         wf_span t attrs content = true ->
         mem (lower t) VOID || mem (lower t) EXCLUDED = false ->
         trimmed (collapse_runs content) text ->
         nonempty text = true ->
         transform (span_text t attrs content ++ rest)
         = option_map
             (app ((str "<" ++ lower t ++ attrs ++ str ">")
                   ++ [nl] ++ str "  " ++ text ++ [nl]
                   ++ (str "</" ++ lower t ++ str ">")))
             (transform rest))
  /\ transform (str "<p>a   b" ++ [nl; nl] ++ str "c</p>")
     = Some (str "<p>" ++ [nl] ++ str "  a b c" ++ [nl] ++ str "</p>")
  /\ transform (str "<P>a   b</P>")
     = Some (str "<p>" ++ [nl] ++ str "  a b" ++ [nl] ++ str "</p>").
Proof.
  split; [|split; [|split; [|split; [|split; reflexivity]]]].
  - intros inner. rewrite sub_eq. apply collapse_sub.
  - intros s t. split; [apply trimmed_strip | intros <-; apply strip_trimmed].
  - intros m g0 tag attrs inner text E0 E1 E2 E3 Hm Ht Hn.
    apply trimmed_strip in Ht.
    rewrite (repl_groups m g0 tag attrs inner E0 E1 E2 E3).
    unfold replacement, normalize. rewrite Hm, Ht.
    destruct text; [discriminate|].
    f_equal. norm_app. reflexivity.
  - intros t attrs content rest text Hwf Hm Ht Hn.
    apply trimmed_strip in Ht.
    rewrite transform_span by assumption. unfold reflowed, normalize.
    rewrite Hm, Ht. destruct text; [discriminate|].
    destruct (transform rest); cbn [option_map]; [|reflexivity].
    f_equal. norm_app. reflexivity.
Qed.

Lemma C3_collapse_and_trim_witness :
  (exists m,
      match_start pattern (str "<P> a " ++ [nl] ++ str "  b </P>") = Some m
      /\ group m 0 = Some (str "<P> a " ++ [nl] ++ str "  b </P>")
      /\ group m 1 = Some (str "P")
      /\ group m 2 = Some []
      /\ group m 3 = Some (str "a " ++ [nl] ++ str "  b")
      /\ mem (lower (str "P")) VOID || mem (lower (str "P")) EXCLUDED = false
      /\ trimmed (collapse_runs (str "a " ++ [nl] ++ str "  b")) (str "a b")
      /\ nonempty (str "a b") = true
      /\ repl m
         = Some ((str "<" ++ lower (str "P") ++ [] ++ str ">")
                 ++ [nl] ++ str "  " ++ str "a b" ++ [nl]
                 ++ (str "</" ++ lower (str "P") ++ str ">")))
  /\ wf_span (str "P") [] ([nl] ++ str " a " ++ [nl] ++ str "  b ") = true
  /\ trimmed (collapse_runs ([nl] ++ str " a " ++ [nl] ++ str "  b "))
       (str "a b")
  /\ transform (span_text (str "P") [] ([nl] ++ str " a " ++ [nl] ++ str "  b ")
                ++ str "!")
     = option_map
         (app ((str "<" ++ lower (str "P") ++ [] ++ str ">")
               ++ [nl] ++ str "  " ++ str "a b" ++ [nl]
               ++ (str "</" ++ lower (str "P") ++ str ">")))
         (transform (str "!")).
Proof.
  split.
  - eexists. split; [vm_compute; reflexivity|].
    do 5 (split; [reflexivity|]).
    split; [exists [], []; repeat split; reflexivity|].
    split; [reflexivity|].
    apply (proj1 (proj2 (proj2 C3_collapse_and_trim)) _
             (str "<P> a " ++ [nl] ++ str "  b </P>") (str "P") []
             (str "a " ++ [nl] ++ str "  b") (str "a b"));
      try reflexivity.
    exists [], []; repeat split; reflexivity.
  - split; [reflexivity|].
    split; [exists (str " "), (str " "); repeat split; reflexivity|].
    apply (proj1 (proj2 (proj2 (proj2 C3_collapse_and_trim)))); try reflexivity.
    exists (str " "), (str " "); repeat split; reflexivity.
Defined.

(** C3 as stated fails: the replacement of "<P>a   b</P>" does not carry
    the open tag and the close tag of the span. *)
Lemma C3_original_tags_fail :
  transform (str "<P>a   b</P>")
  <> Some (str "<P>" ++ [nl] ++ str "  a b" ++ [nl] ++ str "</P>").
Proof. vm_compute. discriminate. Qed.

(** C4. On a match whose lower-cased tag name is in the void set or in the
    excluded set the callback returns the matched text, so such a span is
    emitted as it was, in whatever case the tag name is written;
    "<pre>  x", "  y  </pre>" on two lines comes back unchanged. *)
Theorem C4_void_and_excluded_kept :
  (forall m g0 tag,
      group m 0 = Some g0 -> group m 1 = Some tag ->
      mem (lower tag) VOID || mem (lower tag) EXCLUDED = true ->
      repl m = Some g0)
  /\ (forall t attrs content rest,
         wf_span t attrs content = true ->
         mem (lower t) VOID || mem (lower t) EXCLUDED = true ->
         transform (span_text t attrs content ++ rest)
         = option_map (app (span_text t attrs content)) (transform rest))
  /\ transform (str "<pre>  x" ++ [nl] ++ str "  y  </pre>")
     = Some (str "<pre>  x" ++ [nl] ++ str "  y  </pre>")
  /\ transform (str "<PRE>  x" ++ [nl] ++ str "  y  </PRE>")
     = Some (str "<PRE>  x" ++ [nl] ++ str "  y  </PRE>")
  /\ transform (str "<Br>x</Br>") = Some (str "<Br>x</Br>").
Proof.
  split; [|split; [|repeat split; reflexivity]].
  - intros m g0 tag E0 E1 Hm. unfold repl. rewrite E1, Hm. exact E0.
  - intros t attrs content rest Hwf Hm.
    rewrite transform_span by assumption. unfold reflowed. now rewrite Hm.
Qed.

Lemma C4_void_and_excluded_kept_witness :
  (exists m,
      match_start pattern (str "<Style> a  b </Style>") = Some m
      /\ group m 0 = Some (str "<Style> a  b </Style>")
      /\ group m 1 = Some (str "Style")
      /\ mem (lower (str "Style")) VOID || mem (lower (str "Style")) EXCLUDED
         = true
      /\ repl m = Some (str "<Style> a  b </Style>"))
  /\ wf_span (str "Pre") (str " id=a") (str " x ") = true
  /\ mem (lower (str "Pre")) VOID || mem (lower (str "Pre")) EXCLUDED = true
  /\ transform (span_text (str "Pre") (str " id=a") (str " x ") ++ str "!")
     = option_map (app (span_text (str "Pre") (str " id=a") (str " x ")))
                  (transform (str "!")).
Proof.
  split.
  - eexists. split; [vm_compute; reflexivity|].
    do 3 (split; [reflexivity|]).
    apply (proj1 C4_void_and_excluded_kept _ _ (str "Style")); reflexivity.
  - do 2 (split; [reflexivity|]).
    apply (proj1 (proj2 C4_void_and_excluded_kept)); reflexivity.
Defined.

(** C5. The scan takes the span at the cursor and resumes behind it, so
    matches are leftmost and do not overlap.  An open tag that is directly
    followed by a span is not the start of a span (its content would begin
    with [<]) and is copied, and the span behind it is rewritten on its
    own: of "<div><span>x</span></div>" only the [span] element changes. *)
Theorem C5_leftmost_and_nested :
  (forall t attrs content rest,
      wf_span t attrs content = true ->
      transform (span_text t attrs content ++ rest)
      = option_map (app (reflowed t attrs content)) (transform rest))
  /\ (forall u t attrs content rest,
         forallb (set_not "<") u = true ->
         forallb (set_not ">") u = true ->
         wf_span t attrs content = true ->
         exec pattern
           (mkState [] (str "<" ++ u ++ str ">" ++ span_text t attrs content
                        ++ rest) []) = None
         /\ transform (str "<" ++ u ++ str ">" ++ span_text t attrs content
                       ++ rest)
            = option_map
                (app (str "<" ++ u ++ str ">" ++ reflowed t attrs content))
                (transform rest))
  /\ transform (str "<div><span>x</span></div>")
     = Some (str "<div><span>" ++ [nl] ++ str "  x" ++ [nl]
             ++ str "</span></div>")
  /\ transform (str "<a <a>x</a>")
     = Some (str "<a <a>" ++ [nl] ++ str "  x" ++ [nl] ++ str "</a>").
Proof.
  split; [exact transform_span|]. split; [|split; reflexivity].
  intros u t attrs content rest Hu Hu' Hwf.
  cbn [str list_ascii_of_string app].
  pose proof (no_span_nested u t attrs content rest Hu' Hwf) as Hno.
  split.
  - destruct (exec pattern
                (mkState [] ("<"%char :: u ++ ">"%char
                               :: span_text t attrs content ++ rest) []))
      eqn:E; [|reflexivity].
    exfalso. apply Hno. apply (has_span_exec []). congruence.
  - rewrite transform_char by assumption.
    rewrite transform_copy by assumption.
    rewrite (transform_char ">") by now apply no_span_other.
    rewrite transform_span by assumption.
    destruct (transform rest); cbn [option_map]; [|reflexivity].
    f_equal. norm_app. reflexivity.
Qed.

Lemma C5_leftmost_and_nested_witness :
  wf_span (str "span") [] (str "x") = true
  /\ forallb (set_not "<") (str "div") = true
  /\ forallb (set_not ">") (str "div") = true
  /\ transform (span_text (str "span") [] (str "x") ++ str "</div>")
     = option_map (app (reflowed (str "span") [] (str "x")))
                  (transform (str "</div>"))
  /\ exec pattern
       (mkState [] (str "<" ++ str "div" ++ str ">"
                    ++ span_text (str "span") [] (str "x") ++ str "</div>") [])
     = None
  /\ transform (str "<" ++ str "div" ++ str ">"
                ++ span_text (str "span") [] (str "x") ++ str "</div>")
     = option_map
         (app (str "<" ++ str "div" ++ str ">"
               ++ reflowed (str "span") [] (str "x")))
         (transform (str "</div>")).
Proof.
  do 3 (split; [reflexivity|]). split.
  - apply (proj1 C5_leftmost_and_nested); reflexivity.
  - apply (proj1 (proj2 C5_leftmost_and_nested)); reflexivity.
Defined.

(** C6. On a match whose inner text is empty once collapsed and trimmed,
    which is an inner text of whitespace only, the callback returns the
    matched text, so such a span is emitted as it was; "<p>   </p>" comes
    back unchanged. *)
Theorem C6_blank_span_kept :
  (forall m g0 tag attrs inner,
      group m 0 = Some g0 -> group m 1 = Some tag ->
      group m 2 = Some attrs -> group m 3 = Some inner ->
      normalize inner = [] ->
      repl m = Some g0)
  /\ (forall t attrs content rest,
         wf_span t attrs content = true ->
         normalize content = [] ->
         transform (span_text t attrs content ++ rest)
         = option_map (app (span_text t attrs content)) (transform rest))
  /\ (forall text, normalize text = [] <-> forallb isspace text = true)
  /\ transform (str "<p>   </p>") = Some (str "<p>   </p>").
Proof.
  split; [|split; [|split; [exact normalize_nil_iff | reflexivity]]].
  - intros m g0 tag attrs inner E0 E1 E2 E3 Hn.
    rewrite (repl_groups m g0 tag attrs inner E0 E1 E2 E3).
    unfold replacement. rewrite Hn.
    now destruct (mem (lower tag) VOID || mem (lower tag) EXCLUDED).
  - intros t attrs content rest Hwf Hn.
    rewrite transform_span by assumption. unfold reflowed. rewrite Hn.
    now destruct (mem (lower t) VOID || mem (lower t) EXCLUDED).
Qed.

Lemma C6_blank_span_kept_witness :
  (exists m,
      match_start pattern (str "<p>   </p>") = Some m
      /\ group m 0 = Some (str "<p>   </p>")
      /\ group m 1 = Some (str "p")
      /\ group m 2 = Some []
      /\ group m 3 = Some (str " ")
      /\ normalize (str " ") = []
      /\ repl m = Some (str "<p>   </p>"))
  /\ wf_span (str "p") [] [" "%char; nl; " "%char] = true
  /\ normalize [" "%char; nl; " "%char] = []
  /\ transform (span_text (str "p") [] [" "%char; nl; " "%char] ++ str "z")
     = option_map (app (span_text (str "p") [] [" "%char; nl; " "%char]))
                  (transform (str "z")).
Proof.
  split.
  - eexists. split; [vm_compute; reflexivity|].
    do 5 (split; [reflexivity|]).
    apply (proj1 C6_blank_span_kept _ _ (str "p") [] (str " ")); reflexivity.
  - do 2 (split; [reflexivity|]).
    apply (proj1 (proj2 C6_blank_span_kept)); reflexivity.
Defined.

(** C7, as the code has it.  The close tag of a match is the text of
    group 1, character for character.  In a region made of an open tag,
    text without [<] and a close tag whose name is the name of the open
    tag in another case, no match starts at the open tag; when the
    attribute text holds no [<] either, no match starts anywhere in the
    region and the region is copied: "<P>x</p>" holds no match and comes
    back unchanged.  A [<] in the attribute text can start a span of its
    own: "<P <p>x</p>" is rewritten from its second [<] on. *)
Theorem C7_close_tag_is_exact :
  (forall b a st',
      exec pattern (mkState b a []) = Some st' ->
      exists t attrs content rest,
        group (match_of b st') 1 = Some t
        /\ group (match_of b st') 0
           = Some (str "<" ++ t ++ attrs ++ str ">" ++ content
                   ++ str "</" ++ t ++ str ">")
        /\ a = (str "<" ++ t ++ attrs ++ str ">" ++ content
                ++ str "</" ++ t ++ str ">") ++ rest)
  /\ (forall t t2 attrs content rest,
         tag_name t = true -> tag_name t2 = true ->
         lower t = lower t2 -> pystr_eqb t t2 = false ->
         forallb (set_not ">") attrs = true ->
         forallb (set_not "<") content = true ->
         exec pattern
           (mkState [] (str "<" ++ t ++ attrs ++ str ">" ++ content
                        ++ str "</" ++ t2 ++ str ">" ++ rest) []) = None
         /\ (forallb (set_not "<") attrs = true ->
             (forall before p q,
                 p ++ q = str "<" ++ t ++ attrs ++ str ">" ++ content
                          ++ str "</" ++ t2 ++ str ">" ->
                 q <> [] ->
                 exec pattern (mkState before (q ++ rest) []) = None)
             /\ transform (str "<" ++ t ++ attrs ++ str ">" ++ content
                           ++ str "</" ++ t2 ++ str ">" ++ rest)
                = option_map
                    (app (str "<" ++ t ++ attrs ++ str ">" ++ content
                          ++ str "</" ++ t2 ++ str ">"))
                    (transform rest)))
  /\ exec pattern (mkState [] (str "<P>x</p>") []) = None
  /\ transform (str "<P>x</p>") = Some (str "<P>x</p>")
  /\ exec pattern (mkState [] (str "<P <p>x</p>") []) = None
  /\ transform (str "<P <p>x</p>")
     = Some (str "<P <p>" ++ [nl] ++ str "  x" ++ [nl] ++ str "</p>").
Proof.
  split; [|split; [|repeat split; reflexivity]].
  - intros b a st' H.
    destruct (pattern_match b a st' H)
      as [t [attrs [w1 [inner [w2 [rest H']]]]]].
    destruct H' as [_ [_ [_ [_ [Ea [_ [_ [G0 [G1 _]]]]]]]]].
    exists t, attrs, (w1 ++ inner ++ w2), rest. auto.
  - intros t t2 attrs content rest Ht Ht2 Hlow Hne Ha Hc.
    assert (Hl : length t = length t2)
      by now rewrite <- (lower_length t), Hlow, lower_length.
    assert (Hne' : t <> t2).
    { intros ->. now rewrite pystr_eqb_refl in Hne. }
    assert (E : str "<" ++ t ++ attrs ++ str ">" ++ content ++ str "</" ++ t2
                ++ str ">" ++ rest
                = ("<"%char :: t ++ attrs)
                    ++ ">"%char :: (content
                         ++ "<"%char :: ("/"%char :: t2) ++ ">"%char :: rest))
      by (norm_app; reflexivity).
    assert (Hno : ~ has_span (str "<" ++ t ++ attrs ++ str ">" ++ content
                              ++ str "</" ++ t2 ++ str ">" ++ rest)).
    { rewrite E. apply no_span_other_name; auto using tag_name_no_gt. }
    assert (Hex : forall before,
               exec pattern
                 (mkState before (str "<" ++ t ++ attrs ++ str ">" ++ content
                                  ++ str "</" ++ t2 ++ str ">" ++ rest) [])
               = None).
    { intros before.
      destruct (exec pattern
                  (mkState before (str "<" ++ t ++ attrs ++ str ">" ++ content
                                   ++ str "</" ++ t2 ++ str ">" ++ rest) []))
        eqn:Ex; [|reflexivity].
      exfalso. apply Hno. apply (has_span_exec before). congruence. }
    split; [apply Hex|]. intros Ha'. split.
    + intros before p q Epq Hq.
      destruct p as [|x p].
      * cbn [app] in Epq. subst q. specialize (Hex before).
        revert Hex. norm_app. auto.
      * assert (Hin : ~ has_span (q ++ rest)).
        { apply (no_span_inside (t ++ attrs ++ ">"%char :: content)
                   (t2 ++ [">"%char]) p q rest); [| |exact Hq|].
          - rewrite !forallb_app, (tag_name_no_lt t Ht), Ha'. cbn [forallb].
            now rewrite Hc.
          - rewrite forallb_app, (tag_name_no_lt t2 Ht2). reflexivity.
          - revert Epq. norm_app. now intros [= _ ->]. }
        destruct (exec pattern (mkState before (q ++ rest) [])) eqn:Ex;
          [|reflexivity].
        exfalso. apply Hin. apply (has_span_exec before). congruence.
    + rewrite E in Hno |- *. cbn [app] in Hno |- *.
      rewrite transform_char by assumption.
      rewrite <- app_assoc. cbn [app].
      rewrite transform_copy by now apply tag_name_no_lt.
      rewrite transform_copy by assumption.
      rewrite (transform_char ">") by now apply no_span_other.
      rewrite transform_copy by assumption.
      rewrite transform_char by apply no_span_close.
      rewrite (transform_char "/") by now apply no_span_other.
      rewrite transform_copy by now apply tag_name_no_lt.
      rewrite (transform_char ">") by now apply no_span_other.
      destruct (transform rest) as [out|]; cbn [option_map]; [|reflexivity].
      f_equal. norm_app. reflexivity.
Qed.

Lemma C7_close_tag_is_exact_witness :
  (exists st',
      exec pattern (mkState [] (str "<b>x</b>!") []) = Some st'
      /\ exists t attrs content rest,
           group (match_of [] st') 1 = Some t
           /\ group (match_of [] st') 0
              = Some (str "<" ++ t ++ attrs ++ str ">" ++ content
                      ++ str "</" ++ t ++ str ">")
           /\ str "<b>x</b>!"
              = (str "<" ++ t ++ attrs ++ str ">" ++ content
                 ++ str "</" ++ t ++ str ">") ++ rest)
  /\ tag_name (str "Li") = true /\ tag_name (str "lI") = true
  /\ lower (str "Li") = lower (str "lI")
  /\ pystr_eqb (str "Li") (str "lI") = false
  /\ forallb (set_not ">") (str " id=a") = true
  /\ forallb (set_not "<") (str "x y") = true
  /\ forallb (set_not "<") (str " id=a") = true
  /\ str "<Li id=a>x " ++ str "y</lI>"
     = str "<" ++ str "Li" ++ str " id=a" ++ str ">" ++ str "x y"
       ++ str "</" ++ str "lI" ++ str ">"
  /\ str "y</lI>" <> []
  /\ exec pattern
       (mkState [] (str "<" ++ str "Li" ++ str " id=a" ++ str ">" ++ str "x y"
                    ++ str "</" ++ str "lI" ++ str ">" ++ str "<p>z</p>") [])
     = None
  /\ exec pattern (mkState (str "<Li id=a>x ") (str "y</lI>" ++ str "<p>z</p>") [])
     = None
  /\ transform (str "<" ++ str "Li" ++ str " id=a" ++ str ">" ++ str "x y"
                ++ str "</" ++ str "lI" ++ str ">" ++ str "<p>z</p>")
     = option_map
         (app (str "<" ++ str "Li" ++ str " id=a" ++ str ">" ++ str "x y"
               ++ str "</" ++ str "lI" ++ str ">"))
         (transform (str "<p>z</p>")).
Proof.
  split.
  - eexists. split; [vm_compute; reflexivity|].
    apply (proj1 C7_close_tag_is_exact [] (str "<b>x</b>!")).
    vm_compute. reflexivity.
  - do 8 (split; [reflexivity|]). split; [discriminate|].
    pose proof (proj1 (proj2 C7_close_tag_is_exact)
                  (str "Li") (str "lI") (str " id=a") (str "x y")
                  (str "<p>z</p>") eq_refl eq_refl eq_refl eq_refl eq_refl
                  eq_refl) as [H1 H2].
    specialize (H2 eq_refl) as [H2 H3].
    split; [exact H1|]. split; [|exact H3].
    apply (H2 (str "<Li id=a>x ") (str "<Li id=a>x ") (str "y</lI>"));
      [reflexivity | discriminate].
Defined.

(** C7 as stated fails: in "<P <p>x</p>" the name of the close tag is the
    name of the open tag in another case, and the region does not come back
    unchanged. *)
Lemma C7_region_is_rewritten :
  transform (str "<P <p>x</p>") <> Some (str "<P <p>x</p>").
Proof. vm_compute. discriminate. Qed.

(** C8. [transform] returns a string on every input: the callback never
    raises and the scan comes to an end.  Where no match starts, the
    character at the cursor is copied, so unbalanced markup comes back as
    it was. *)
Theorem C8_total :
  (forall html, exists out, transform html = Some out)
  /\ (forall c rest,
         exec pattern (mkState [] (c :: rest) []) = None ->
         transform (c :: rest) = option_map (cons c) (transform rest))
  /\ transform (str "<p>unclosed <b>x</i> </p")
     = Some (str "<p>unclosed <b>x</i> </p")
  /\ transform (str "</p>><<p") = Some (str "</p>><<p")
  /\ transform [] = Some [].
Proof.
  split; [exact transform_total|]. split; [|repeat split; reflexivity].
  intros c rest H. apply transform_char.
  rewrite (has_span_exec []). now rewrite H.
Qed.

Lemma C8_total_witness :
  exec pattern (mkState [] (str "<br>") []) = None
  /\ transform (str "<br>") = option_map (cons "<"%char) (transform (str "br>")).
Proof.
  split; [reflexivity|].
  apply (proj1 (proj2 C8_total) "<"%char (str "br>")). reflexivity.
Defined.




(** C10. Tag name and attribute text of a match are the characters up to
    the first [>] behind the [<], so a quoted value that holds a [>] is cut
    there: the rest of the value becomes inner text and is moved to the
    next line. *)
Theorem C10_attribute_text_ends_at_first_gt :
  (forall b a st',
      exec pattern (mkState b a []) = Some st' ->
      exists tag attrs tail,
        group (match_of b st') 1 = Some tag
        /\ group (match_of b st') 2 = Some attrs
        /\ forallb (set_not ">") (tag ++ attrs) = true
        /\ a = str "<" ++ tag ++ attrs ++ str ">" ++ tail)
  /\ (exists m,
         match_start pattern
           (str "<a title=" ++ [dq] ++ str "a>b" ++ [dq] ++ str ">x</a>")
         = Some m
         /\ group m 2 = Some (str " title=" ++ [dq] ++ str "a")
         /\ group m 3 = Some (str "b" ++ [dq] ++ str ">x"))
  /\ transform (str "<a title=" ++ [dq] ++ str "a>b" ++ [dq] ++ str ">x</a>")
     = Some (str "<a title=" ++ [dq] ++ str "a>" ++ [nl]
             ++ str "  b" ++ [dq] ++ str ">x" ++ [nl] ++ str "</a>").
Proof.
  split; [|split; [|reflexivity]].
  - intros b a st' H.
    destruct (pattern_match b a st' H)
      as [t [attrs [w1 [inner [w2 [rest H']]]]]].
    destruct H' as [Hwf [_ [_ [_ [Ea [_ [_ [_ [G1 [G2 _]]]]]]]]]].
    apply wf_span_inv in Hwf as [Ht [_ [Ha _]]].
    exists t, attrs,
      ((w1 ++ inner ++ w2) ++ str "</" ++ t ++ str ">" ++ rest).
    repeat split; auto.
    + now rewrite forallb_app, tag_name_no_gt, Ha.
    + rewrite Ea. unfold span_text. norm_app. reflexivity.
  - eexists. split; [vm_compute; reflexivity|]. split; reflexivity.
Qed.

Lemma C10_attribute_text_ends_at_first_gt_witness :
  exists st',
    exec pattern (mkState [] (str "<a b=c>x</a>") []) = Some st'
    /\ exists tag attrs tail,
         group (match_of [] st') 1 = Some tag
         /\ group (match_of [] st') 2 = Some attrs
         /\ forallb (set_not ">") (tag ++ attrs) = true
         /\ str "<a b=c>x</a>" = str "<" ++ tag ++ attrs ++ str ">" ++ tail.
Proof.
  eexists. split; [vm_compute; reflexivity|].
  apply (proj1 C10_attribute_text_ends_at_first_gt [] (str "<a b=c>x</a>")).
  vm_compute. reflexivity.
Defined.

(* ------------------------------------------------------------------ *)
(** ** Further properties of the script *)

(* ------------------------------------------------------------------ *)
(** ** What the rewrite keeps *)

Lemma filter_squeeze (s : pystr) (b : bool) :
  filter inked (squeeze b s) = filter inked s.
Proof.
  revert b; induction s as [|c s IH]; intros b; [reflexivity|].
  cbn [squeeze filter]. unfold inked at 2. destruct (isspace c) eqn:Hc; cbn [negb].
  - destruct b; cbn [filter]; unfold inked at 1; rewrite ?isspace_sp; apply IH.
  - cbn [filter]. unfold inked at 1. rewrite Hc. cbn [negb]. now rewrite IH.
Qed.

Lemma filter_lstrip (s : pystr) : filter inked (lstrip s) = filter inked s.
Proof.
  induction s as [|c s IH]; [reflexivity|]. cbn [lstrip filter].
  unfold inked at 2. destruct (isspace c) eqn:Hc; cbn [negb]; [exact IH|].
  cbn [filter]. unfold inked at 1. now rewrite Hc.
Qed.

Lemma filter_rstrip (s : pystr) : filter inked (rstrip s) = filter inked s.
Proof.
  unfold rstrip. rewrite filter_rev, filter_lstrip, filter_rev.
  apply rev_involutive.
Qed.

Lemma filter_normalize (s : pystr) : filter inked (normalize s) = filter inked s.
Proof.
  unfold normalize, strip, collapse_runs.
  now rewrite filter_rstrip, filter_lstrip, filter_squeeze.
Qed.

Lemma isspace_lower_char (c : ascii) : isspace (lower_char c) = isspace c.
Proof. each_char c. Qed.

Lemma skeleton_app (a b : pystr) : skeleton (a ++ b) = skeleton a ++ skeleton b.
Proof. unfold skeleton, lower. now rewrite filter_app, map_app. Qed.

Lemma skeleton_lower (s : pystr) : skeleton (lower s) = skeleton s.
Proof.
  unfold skeleton, lower. induction s as [|c s IH]; [reflexivity|].
  cbn [map filter].
  assert (Hc : inked (lower_char c) = inked c)
    by (unfold inked; now rewrite isspace_lower_char).
  rewrite Hc. destruct (inked c); [|exact IH].
  cbn [map]. rewrite lower_char_idem. f_equal. exact IH.
Qed.

Lemma skeleton_normalize (s : pystr) : skeleton (normalize s) = skeleton s.
Proof. unfold skeleton. now rewrite filter_normalize. Qed.

Lemma skeleton_reflowed (t attrs content : pystr) :
  skeleton (reflowed t attrs content) = skeleton (span_text t attrs content).
Proof.
  unfold reflowed.
  destruct (mem (lower t) VOID || mem (lower t) EXCLUDED); [reflexivity|].
  destruct (normalize content) as [|x text] eqn:E; [reflexivity|].
  unfold span_text. rewrite !skeleton_app, !skeleton_lower, <- E.
  rewrite skeleton_normalize. reflexivity.
Qed.

Lemma reflow_skeleton (a out : pystr) : Reflow a out -> skeleton out = skeleton a.
Proof.
  induction 1 as [|t attrs content rest out Hwf Hr IH|c rest out Hn Hr IH].
  - reflexivity.
  - now rewrite !skeleton_app, skeleton_reflowed, IH.
  - change (c :: out) with ([c] ++ out). change (c :: rest) with ([c] ++ rest).
    now rewrite !skeleton_app, IH.
Qed.

(** X1. On a document of code points U+0000 to U+00FF, [transform]
    changes whitespace and the case of letters only: the characters that
    are not whitespace, taken in lower case, are the same in the input and
    in the output, in the same order. *)
Theorem transform_keeps_ink :
  forall html, option_map skeleton (transform html) = Some (skeleton html).
Proof.
  intros html. destruct (transform_total html) as [out E]. rewrite E.
  cbn [option_map]. f_equal. apply reflow_skeleton. now apply transform_iff.
Qed.

(* ------------------------------------------------------------------ *)
(** ** Text around the markup *)

Lemma span_has_gt (a : pystr) :
  has_span a -> forallb (set_not ">") a = true -> False.
Proof.
  intros [t [attrs [content [rest [_ ->]]]]] H.
  rewrite span_cut in H. now apply not_free in H.
Qed.

Lemma span_text_last (t attrs content : pystr) :
  exists x, span_text t attrs content = x ++ [">"%char].
Proof.
  exists (str "<" ++ t ++ attrs ++ str ">" ++ content ++ str "</" ++ t).
  unfold span_text. norm_app. reflexivity.
Qed.

(** A span that starts in [a] does not reach into a text without [>]. *)
Lemma has_span_app (a v : pystr) :
  forallb (set_not ">") v = true -> has_span (a ++ v) -> has_span a.
Proof.
  intros Hv [t [attrs [content [rest [Hwf E]]]]].
  symmetry in E. apply app_eq_app in E as [l [[E1 E2]|[E1 E2]]].
  - destruct l as [|z l].
    + rewrite app_nil_r in E1. exists t, attrs, content, [].
      rewrite app_nil_r. auto.
    + exfalso. destruct (span_text_last t attrs content) as [x Ex].
      rewrite Ex in E1.
      destruct (@exists_last _ (z :: l)) as [l' [y El]]; [discriminate|].
      rewrite El, app_assoc in E1. apply app_inj_tail in E1 as [_ Ey]. subst y.
      rewrite E2, El, <- app_assoc in Hv. cbn [app] in Hv.
      now apply not_free in Hv.
  - exists t, attrs, content, l. auto.
Qed.

Lemma reflow_plain (v : pystr) :
  forallb (set_not ">") v = true -> Reflow v v.
Proof.
  induction v as [|c v IH]; intros H; [constructor|].
  constructor.
  - intros Hs. exact (span_has_gt _ Hs H).
  - apply IH. cbn [forallb] in H. now apply andb_true_iff in H as [_ H].
Qed.

Lemma reflow_app_plain (a out v : pystr) :
  forallb (set_not ">") v = true -> Reflow a out -> Reflow (a ++ v) (out ++ v).
Proof.
  intros Hv. induction 1 as [|t attrs content rest out Hwf Hr IH|c rest out Hn Hr IH].
  - now apply reflow_plain.
  - rewrite <- !app_assoc. now constructor.
  - cbn [app]. constructor; [|exact IH].
    intros Hs. apply Hn. exact (has_span_app (c :: rest) v Hv Hs).
Qed.

(** X2. Text before the first [<] and text behind the last [>] is copied:
    around a document, a prefix without [<] and a suffix without [>] come
    out as they were, and the document between them is rewritten as it
    would be alone. *)
Theorem transform_copies_plain_text :
  forall u s v,
    forallb (set_not "<") u = true ->
    forallb (set_not ">") v = true ->
    transform (u ++ s ++ v) = option_map (fun out => u ++ out ++ v) (transform s).
Proof.
  intros u s v Hu Hv. rewrite transform_copy by assumption.
  destruct (transform_total s) as [out E]. rewrite E. cbn [option_map].
  assert (E' : transform (s ++ v) = Some (out ++ v)).
  { apply transform_iff. apply reflow_app_plain; [assumption|].
    now apply transform_iff. }
  now rewrite E'.
Qed.

Lemma transform_copies_plain_text_witness :
  forallb (set_not "<") (str "a > b ") = true
  /\ forallb (set_not ">") (str " c < d") = true
  /\ transform (str "a > b " ++ str "<i> x </i>" ++ str " c < d")
     = option_map (fun out => str "a > b " ++ out ++ str " c < d")
                  (transform (str "<i> x </i>")).
Proof.
  do 2 (split; [reflexivity|]).
  apply transform_copies_plain_text; reflexivity.
Defined.

(* ------------------------------------------------------------------ *)
(** ** Size *)

Lemma squeeze_length (s : pystr) (b : bool) : length (squeeze b s) <= length s.
Proof.
  revert b; induction s as [|c s IH]; intros b; [auto|]. cbn [squeeze].
  pose proof (IH true). pose proof (IH false).
  destruct (isspace c); [destruct b|]; cbn [length]; lia.
Qed.

Lemma normalize_length (s : pystr) : length (normalize s) <= length s.
Proof.
  unfold normalize, strip, rstrip, collapse_runs.
  rewrite length_rev.
  pose proof (lstrip_length (rev (lstrip (squeeze false s)))) as H1.
  rewrite length_rev in H1.
  pose proof (lstrip_length (squeeze false s)) as H2.
  pose proof (squeeze_length s false) as H3. lia.
Qed.


Lemma reflowed_length (t attrs content : pystr) :
  wf_span t attrs content = true ->
  2 * length (reflowed t attrs content)
  <= 3 * length (span_text t attrs content).
Proof.
  intros Hwf. apply wf_span_inv in Hwf as [Ht [_ [_ [Hn _]]]].
  unfold reflowed.
  destruct (mem (lower t) VOID || mem (lower t) EXCLUDED); [lia|].
  pose proof (normalize_length content) as Hl.
  destruct (normalize content) as [|x text]; [lia|].
  destruct t as [|y t]; [discriminate|].
  destruct content as [|z content]; [discriminate|].
  unfold span_text.
  repeat first [rewrite length_app | rewrite lower_length
               | progress cbn [length str list_ascii_of_string INDENT]].
  cbn [length] in Hl. unfold INDENT. cbn [length str list_ascii_of_string].
  lia.
Qed.

Lemma reflow_length (a out : pystr) :
  Reflow a out -> 2 * length out <= 3 * length a.
Proof.
  induction 1 as [|t attrs content rest out Hwf Hr IH|c rest out Hn Hr IH].
  - auto.
  - rewrite !length_app. pose proof (reflowed_length t attrs content Hwf). lia.
  - cbn [length]. lia.
Qed.

(** X4. On a document of code points U+0000 to U+00FF, where [str.lower]
    keeps the length of a tag name, the output is at most one and a half
    times as long as the input: a rewritten span gains at most four
    characters and is at least eight long. *)
Theorem transform_output_size :
  forall html,
    exists out,
      transform html = Some out /\ 2 * length out <= 3 * length html.
Proof.
  intros html. destruct (transform_total html) as [out E].
  exists out. split; [exact E|]. apply reflow_length. now apply transform_iff.
Qed.

(* ------------------------------------------------------------------ *)
(** ** The block depends on the lower-case name and the words *)

(** X5. The block written for a qualifying span depends on the tag name
    only through its lower-case form and on the text only through its
    words: two spans with the same attribute text whose names agree in
    lower case and whose texts agree once collapsed and trimmed give the
    same output. *)
Theorem transform_canonical_block :
  forall t1 t2 attrs c1 c2 rest,
    wf_span t1 attrs c1 = true -> wf_span t2 attrs c2 = true ->
    lower t1 = lower t2 ->
    normalize c1 = normalize c2 ->
    mem (lower t1) VOID || mem (lower t1) EXCLUDED = false ->
    nonempty (normalize c1) = true ->
    transform (span_text t1 attrs c1 ++ rest)
    = transform (span_text t2 attrs c2 ++ rest).
Proof.
  intros t1 t2 attrs c1 c2 rest H1 H2 Ht Hc Hm Hn.
  rewrite !transform_span by assumption. unfold reflowed.
  rewrite <- Ht, <- Hc, Hm.
  destruct (normalize c1); [discriminate | reflexivity].
Qed.

Lemma transform_canonical_block_witness :
  wf_span (str "Em") (str " id=a") (str " a   b ") = true
  /\ wf_span (str "eM") (str " id=a") ([nl] ++ str "a" ++ [nl] ++ str "b") = true
  /\ lower (str "Em") = lower (str "eM")
  /\ normalize (str " a   b ") = normalize ([nl] ++ str "a" ++ [nl] ++ str "b")
  /\ mem (lower (str "Em")) VOID || mem (lower (str "Em")) EXCLUDED = false
  /\ nonempty (normalize (str " a   b ")) = true
  /\ transform (span_text (str "Em") (str " id=a") (str " a   b ") ++ str "!")
     = transform (span_text (str "eM") (str " id=a")
                    ([nl] ++ str "a" ++ [nl] ++ str "b") ++ str "!").
Proof.
  do 6 (split; [reflexivity|]).
  apply transform_canonical_block; reflexivity.
Defined.

(* ------------------------------------------------------------------ *)
(** ** The text line of a block *)

Lemma spaced_squeeze (s : pystr) :
  spaced false (squeeze false s) = true /\ spaced true (squeeze true s) = true.
Proof.
  induction s as [|c s [IH1 IH2]]; [split; reflexivity|].
  cbn [squeeze]. destruct (isspace c) eqn:Hc.
  - split; [|exact IH2]. cbn [spaced]. rewrite isspace_sp. exact IH2.
  - cbn [spaced]. rewrite Hc. auto.
Qed.

Lemma spaced_lstrip (s : pystr) :
  spaced false s = true -> spaced true (lstrip s) = true.
Proof.
  destruct s as [|c s]; [auto|]. cbn [spaced lstrip].
  destruct (isspace c) eqn:Hc.
  - cbn [negb andb]. intros H. apply andb_true_iff in H as [_ H].
    destruct s as [|d s]; [reflexivity|]. cbn [spaced lstrip] in *.
    destruct (isspace d) eqn:Hd; [discriminate|].
    cbn [spaced]. now rewrite Hd.
  - intros H. cbn [spaced]. now rewrite Hc.
Qed.

Lemma lstrip_snoc (l : pystr) (c : ascii) :
  lstrip (l ++ [c])
  = if forallb isspace l then (if isspace c then [] else [c])
    else lstrip l ++ [c].
Proof.
  induction l as [|a l IH]; [reflexivity|]. cbn [app lstrip forallb].
  destruct (isspace a); [exact IH | reflexivity].
Qed.

Lemma rstrip_cons (c : ascii) (s : pystr) :
  rstrip (c :: s)
  = if forallb isspace s then (if isspace c then [] else [c])
    else c :: rstrip s.
Proof.
  unfold rstrip. cbn [rev]. rewrite lstrip_snoc, forallb_rev.
  destruct (forallb isspace s).
  - now destruct (isspace c).
  - now rewrite rev_app_distr.
Qed.

Lemma rstrip_nil (s : pystr) : rstrip s = [] -> forallb isspace s = true.
Proof.
  intros H. destruct (rstrip_decomp s) as [w [Hw E]].
  rewrite H in E. now rewrite E.
Qed.

Lemma spaced_rstrip (s : pystr) (b : bool) :
  spaced b s = true -> rstrip s = [] \/ spaced_line b (rstrip s) = true.
Proof.
  revert b; induction s as [|c s IH]; intros b H; [now left|].
  rewrite rstrip_cons. destruct (forallb isspace s) eqn:Hs.
  - destruct (isspace c) eqn:Hc; [now left|].
    right. cbn [spaced_line]. now rewrite Hc.
  - right. cbn [spaced spaced_line] in *.
    destruct (isspace c).
    + apply andb_true_iff in H as [H1 H2]. rewrite H1. cbn [andb].
      destruct (IH true H2) as [E|E]; [|exact E].
      apply rstrip_nil in E. congruence.
    + destruct (IH false H) as [E|E]; [|exact E].
      apply rstrip_nil in E. congruence.
Qed.

Lemma normalize_text_line (s : pystr) : text_line (normalize s) = true.
Proof.
  unfold normalize, strip, collapse_runs.
  pose proof (spaced_lstrip _ (proj1 (spaced_squeeze s))) as H.
  apply spaced_rstrip in H. unfold text_line.
  destruct H as [->|H]; [reflexivity|].
  now destruct (rstrip (lstrip (squeeze false s))).
Qed.

Lemma spaced_line_space (s : pystr) (b : bool) (c : ascii) :
  spaced_line b s = true -> In c s -> isspace c = true -> c = " "%char.
Proof.
  revert b; induction s as [|d s IH]; intros b H Hin Hs; [destruct Hin|].
  destruct Hin as [<-|Hc]; cbn [spaced_line] in H.
  - rewrite Hs in H. apply andb_true_iff in H as [H _].
    apply andb_true_iff in H as [_ H]. now apply Ascii.eqb_eq in H.
  - destruct (isspace d); [|now apply (IH false)].
    apply andb_true_iff in H as [_ H]. now apply (IH true).
Qed.

(** X3. The text the callback puts on the middle line of a block, the
    inner text collapsed by [re.sub] and then stripped, is one line of
    words: its only whitespace is the space, no space follows another, and
    it neither starts nor ends with one. *)
Theorem block_text_is_one_line :
  forall inner,
    exists text,
      option_map strip (sub ws_plus (fun _ => Some (str " ")) inner) = Some text
      /\ text_line text = true
      /\ (forall c, In c text -> isspace c = true -> c = " "%char).
Proof.
  intros inner. exists (normalize inner). split; [|split].
  - rewrite sub_eq, collapse_sub. reflexivity.
  - apply normalize_text_line.
  - pose proof (normalize_text_line inner) as H. unfold text_line in H.
    destruct (normalize inner) as [|x text]; [intros c []|].
    intros c. now apply spaced_line_space with (b := true).
Qed.

(* ------------------------------------------------------------------ *)
(** ** Files *)

Lemma transform_plain (s : pystr) :
  forallb (set_not "<") s = true \/ forallb (set_not ">") s = true ->
  transform s = Some s.
Proof.
  intros [H|H].
  - rewrite <- (app_nil_r s). rewrite transform_copy by assumption. reflexivity.
  - apply transform_iff. now apply reflow_plain.
Qed.

Section FileFacts.

Variable world : Type.
Variable path : Type.
Variable glob : pystr -> world -> option (list path).
Variable sorted : list path -> list path.
Variable is_file : path -> world -> option bool.
Variable suffix : path -> pystr.
Variable read_text : path -> world -> option pystr.
Variable write_text : path -> pystr -> world -> ran world.

Abbreviation process_file' := (process_file world path read_text write_text).
Abbreviation each_path' :=
  (each_path world path is_file suffix read_text write_text).
Abbreviation each_arg' :=
  (each_arg world path glob sorted is_file suffix read_text write_text).
Abbreviation settled p w := (settled_text (read_text p w)).
Abbreviation chosen := (wanted world path is_file suffix).

Lemma process_file_settled (p : path) (w : world) :
  settled p w -> process_file' p w = Went world w.
Proof.
  intros [html [E H]]. unfold process_file.
  rewrite E, H, pystr_eqb_refl. reflexivity.
Qed.

Lemma process_file_cases (p : path) (w : world) :
  (process_file' p w = Went world w /\ settled p w)
  \/ (exists new,
         transform new = Some new /\ process_file' p w = write_text p new w)
  \/ process_file' p w = Threw world w.
Proof.
  unfold process_file. destruct (read_text p w) as [html|] eqn:Er; [|auto].
  destruct (transform html) as [new|] eqn:E; [|auto].
  destruct (pystr_eqb new html) eqn:Eq; cbn [negb].
  - left. apply pystr_eqb_eq in Eq. subst new. split; [reflexivity|].
    exists html. auto.
  - right. left. exists new. split; [|reflexivity]. now apply transform_fixed in E.
Qed.

Lemma each_path_settled (ps : list path) (w : world) :
  (forall p, In p ps ->
     chosen p w <> None /\ (chosen p w = Some true -> settled p w)) ->
  each_path' ps w = Went world w.
Proof.
  induction ps as [|p ps IH]; intros H; [reflexivity|]. cbn [each_path].
  destruct (H p (or_introl eq_refl)) as [Hc Hs].
  destruct (chosen p w) as [[|]|] eqn:E; [| |contradiction].
  - rewrite process_file_settled by now apply Hs.
    apply IH. intros q Hq. apply H. now right.
  - apply IH. intros q Hq. apply H. now right.
Qed.

Lemma each_arg_settled (args : list pystr) (w : world) :
  (forall arg, In arg args ->
     exists found,
       glob arg w = Some found
       /\ forall p, In p (sorted found) ->
            chosen p w <> None /\ (chosen p w = Some true -> settled p w)) ->
  each_arg' args w = Went world w.
Proof.
  induction args as [|arg args IH]; intros H; [reflexivity|]. cbn [each_arg].
  destruct (H arg (or_introl eq_refl)) as [found [-> Hf]].
  rewrite each_path_settled by exact Hf.
  apply IH. intros a Ha. apply H. now right.
Qed.

Hypothesis laws : fs_laws world path glob is_file read_text write_text.

Abbreviation kept := (unchanged_by_run world path glob is_file read_text).

Lemma kept_refl (w : world) : kept w w.
Proof. repeat split; auto. Qed.

Lemma kept_chosen (w w' : world) (p : path) :
  kept w w' -> chosen p w' = chosen p w.
Proof. intros [_ [F _]]. unfold wanted. now rewrite F. Qed.

Lemma kept_trans (w1 w2 w3 : world) : kept w1 w2 -> kept w2 w3 -> kept w1 w3.
Proof.
  intros [G1 [F1 S1]] [G2 [F2 S2]]. repeat split.
  - intros arg. now rewrite G2.
  - intros q. now rewrite F2.
  - auto.
Qed.

Lemma process_file_went (p : path) (w w' : world) :
  process_file' p w = Went world w' -> kept w w' /\ settled p w'.
Proof.
  destruct laws as [L1 [L2 [L3 [L4 _]]]].
  intros H. destruct (process_file_cases p w) as [[E Hs]|[[new [Hn E]]|E]];
    rewrite E in H.
  - injection H as <-. split; [apply kept_refl | exact Hs].
  - split; [|exists new; split; [exact (L1 p new w w' H) | exact Hn]].
    repeat split.
    + intros arg. exact (L3 arg p new w w' H).
    + intros q. exact (L4 q p new w w' H).
    + intros q Hq. destruct (L2 p q new w w' H) as [->|Eq].
      * exists new. split; [exact (L1 p new w w' H) | exact Hn].
      * now rewrite Eq.
  - discriminate.
Qed.

Lemma process_file_threw (p : path) (w w' : world) :
  process_file' p w = Threw world w' -> w' = w.
Proof.
  destruct laws as [_ [_ [_ [_ L5]]]].
  intros H. destruct (process_file_cases p w) as [[E Hs]|[[new [Hn E]]|E]];
    rewrite E in H.
  - discriminate.
  - exact (L5 p new w w' H).
  - now injection H.
Qed.

Lemma each_path_went (ps : list path) (w w' : world) :
  each_path' ps w = Went world w' ->
  kept w w'
  /\ (forall p, In p ps ->
        chosen p w <> None /\ (chosen p w = Some true -> settled p w')).
Proof.
  revert w; induction ps as [|p ps IH]; intros w H; cbn [each_path] in H.
  - injection H as <-. split; [apply kept_refl | intros p []].
  - destruct (chosen p w) as [[|]|] eqn:E; [| |discriminate].
    + destruct (process_file' p w) as [w1|w1] eqn:E1; [|discriminate].
      apply process_file_went in E1 as [K1 S1].
      apply IH in H as [K2 S2]. split; [exact (kept_trans _ _ _ K1 K2)|].
      intros q [<-|Hq].
      * rewrite E. split; [discriminate|]. intros _.
        destruct K2 as [_ [_ T2]]. now apply T2.
      * rewrite <- (kept_chosen w w1 q K1). now apply S2.
    + apply IH in H as [K2 S2]. split; [exact K2|].
      intros q [<-|Hq]; [|now apply S2].
      rewrite E. split; discriminate.
Qed.

(** A loop that raised raises again, at the same place, when it is run on
    the files it left. *)
Lemma each_path_threw (ps : list path) (w w' : world) :
  each_path' ps w = Threw world w' ->
  kept w w' /\ each_path' ps w' = Threw world w'.
Proof.
  revert w; induction ps as [|p ps IH]; intros w H; cbn [each_path] in H;
    [discriminate|].
  destruct (chosen p w) as [[|]|] eqn:E.
  - destruct (process_file' p w) as [w1|w1] eqn:E1.
    + apply process_file_went in E1 as [K1 S1].
      apply IH in H as [K2 H2].
      pose proof (kept_trans _ _ _ K1 K2) as K. split; [exact K|].
      cbn [each_path]. rewrite (kept_chosen w w' p K), E.
      destruct K2 as [_ [_ T2]].
      rewrite process_file_settled by now apply T2. exact H2.
    + injection H as <-. pose proof (process_file_threw p w w1 E1) as ->.
      split; [apply kept_refl|]. cbn [each_path]. now rewrite E, E1.
  - apply IH in H as [K2 H2]. split; [exact K2|].
    cbn [each_path]. now rewrite (kept_chosen w w' p K2), E.
  - injection H as <-. split; [apply kept_refl|]. cbn [each_path]. now rewrite E.
Qed.

Lemma each_arg_went (args : list pystr) (w w' : world) :
  each_arg' args w = Went world w' ->
  kept w w'
  /\ (forall arg, In arg args ->
        exists found,
          glob arg w = Some found
          /\ forall p, In p (sorted found) ->
               chosen p w <> None /\ (chosen p w = Some true -> settled p w')).
Proof.
  revert w; induction args as [|arg args IH]; intros w H; cbn [each_arg] in H.
  - injection H as <-. split; [apply kept_refl | intros a []].
  - destruct (glob arg w) as [found|] eqn:Eg; [|discriminate].
    destruct (each_path' (sorted found) w) as [w1|w1] eqn:E1; [|discriminate].
    apply each_path_went in E1 as [K1 S1].
    apply IH in H as [K2 S2]. split; [exact (kept_trans _ _ _ K1 K2)|].
    intros a [<-|Ha].
    + exists found. split; [exact Eg|]. intros p Hp.
      destruct (S1 p Hp) as [Hc Hs]. split; [exact Hc|]. intros Ht.
      destruct K2 as [_ [_ T2]]. apply T2. now apply Hs.
    + destruct (S2 a Ha) as [fa [Ea Sa]]. exists fa.
      destruct K1 as [G1 [F1 T1]].
      split; [now rewrite <- G1|]. intros p Hp.
      rewrite <- (kept_chosen w w1 p (conj G1 (conj F1 T1))). now apply Sa.
Qed.

Lemma each_arg_threw (args : list pystr) (w w' : world) :
  each_arg' args w = Threw world w' ->
  kept w w' /\ each_arg' args w' = Threw world w'.
Proof.
  revert w; induction args as [|arg args IH]; intros w H; cbn [each_arg] in H;
    [discriminate|].
  destruct (glob arg w) as [found|] eqn:Eg.
  - destruct (each_path' (sorted found) w) as [w1|w1] eqn:E1.
    + apply each_path_went in E1 as [K1 S1].
      apply IH in H as [K2 H2].
      pose proof (kept_trans _ _ _ K1 K2) as K. split; [exact K|].
      cbn [each_arg]. rewrite (proj1 K), Eg.
      rewrite each_path_settled; [exact H2|].
      intros p Hp. rewrite (kept_chosen w w' p K).
      destruct (S1 p Hp) as [Hc Hs]. split; [exact Hc|]. intros Ht.
      destruct K2 as [_ [_ T2]]. apply T2. now apply Hs.
    + injection H as <-. apply each_path_threw in E1 as [K1 H1].
      split; [exact K1|]. cbn [each_arg]. destruct K1 as [G _].
      now rewrite G, Eg, H1.
  - injection H as <-. split; [apply kept_refl|]. cbn [each_arg]. now rewrite Eg.
Qed.

Lemma each_arg_again (args : list pystr) (w : world) :
  each_arg' args (left_files world (each_arg' args w)) = each_arg' args w.
Proof.
  destruct (each_arg' args w) as [w'|w'] eqn:H; cbn [left_files].
  - apply each_arg_went in H as [K S].
    apply each_arg_settled. intros arg Ha.
    destruct (S arg Ha) as [found [Eg Sf]]. exists found.
    split; [now rewrite (proj1 K)|]. intros p Hp.
    rewrite (kept_chosen w w' p K). now apply Sf.
  - now apply each_arg_threw in H as [_ H].
Qed.

End FileFacts.

(** X6. [process_file] does not write a file that holds no [<], or no [>]:
    [transform] returns such a text as it is, the call returns, and the
    file system is the one before the call. *)
Theorem process_file_leaves_plain_text :
  forall (world path : Type)
         (read_text : path -> world -> option pystr)
         (write_text : path -> pystr -> world -> ran world)
         (p : path) (w : world) (html : pystr),
    read_text p w = Some html ->
    forallb (set_not "<") html = true \/ forallb (set_not ">") html = true ->
    process_file world path read_text write_text p w = Went world w.
Proof.
  intros world path read_text write_text p w html E H.
  apply process_file_settled. exists html. split; [exact E|].
  now apply transform_plain.
Qed.

Lemma process_file_leaves_plain_text_witness :
  read_two true (str "if a > b:", str "<p>x</p>") = Some (str "if a > b:")
  /\ (forallb (set_not "<") (str "if a > b:") = true
      \/ forallb (set_not ">") (str "if a > b:") = true)
  /\ process_file two_files bool read_two write_locked true
       (str "if a > b:", str "<p>x</p>")
     = Went two_files (str "if a > b:", str "<p>x</p>").
Proof.
  split; [reflexivity|]. split; [left; reflexivity|].
  apply (process_file_leaves_plain_text two_files bool read_two write_locked
           true _ (str "if a > b:")); [reflexivity | left; reflexivity].
Defined.

(** X7. Where a file holds what was last written to it, [process_file] on
    the same path a second time changes nothing: the text it wrote is one
    [transform] returns unchanged.  A call that raised is not followed by a
    second one. *)
Theorem process_file_again :
  forall (world path : Type)
         (read_text : path -> world -> option pystr)
         (write_text : path -> pystr -> world -> ran world),
    (forall p s w w',
        write_text p s w = Went world w' -> read_text p w' = Some s) ->
    forall (p : path) (w : world),
      and_next world (process_file world path read_text write_text p w)
               (process_file world path read_text write_text p)
      = process_file world path read_text write_text p w.
Proof.
  intros world path read_text write_text L1 p w.
  destruct (process_file_cases world path read_text write_text p w)
    as [[E Hs]|[[new [Hn E]]|E]]; rewrite E.
  - cbn [and_next]. exact E.
  - destruct (write_text p new w) as [w'|w'] eqn:Ew; [|reflexivity].
    cbn [and_next]. apply process_file_settled.
    exists new. split; [exact (L1 p new w w' Ew) | exact Hn].
  - reflexivity.
Qed.

Lemma process_file_again_witness :
  (forall p s w w',
      write_two p s w = Went two_files w' -> read_two p w' = Some s)
  /\ process_file two_files bool read_two write_two true
       (str "<P> a  b </P>", str "x")
     = Went two_files
         (str "<p>" ++ [nl] ++ str "  a b" ++ [nl] ++ str "</p>", str "x")
  /\ and_next two_files
       (process_file two_files bool read_two write_two true
          (str "<P> a  b </P>", str "x"))
       (process_file two_files bool read_two write_two true)
     = process_file two_files bool read_two write_two true
         (str "<P> a  b </P>", str "x").
Proof.
  assert (L1 : forall p s w w',
             write_two p s w = Went two_files w' -> read_two p w' = Some s)
    by (intros [] s [x y] w' [= <-]; reflexivity).
  split; [exact L1|]. split; [reflexivity|].
  apply process_file_again. exact L1.
Defined.

(** X8. [main] handles its arguments one after the other: a run with two
    lists of arguments is a run with the first list followed, when that run
    returns, by a run with the second list on the files the first run left.
    When the run with the first list ends in an exception, so does the run
    with both, in the same files and with the same report, and no argument
    of the second list is looked at. *)
Theorem main_arguments_compose :
  forall (world path : Type)
         (glob : pystr -> world -> option (list path))
         (sorted : list path -> list path)
         (is_file : path -> world -> option bool)
         (suffix : path -> pystr)
         (read_text : path -> world -> option pystr)
         (write_text : path -> pystr -> world -> ran world)
         (prog prog' a b : pystr) (args1 args2 : list pystr)
         (pr : process world),
    let run := main world path glob sorted is_file suffix read_text write_text in
    run (prog :: (a :: args1) ++ (b :: args2)) pr
    = match run (prog :: a :: args1) pr with
      | (Returned, pr1) => run (prog' :: b :: args2) pr1
      | stopped => stopped
      end.
Proof.
  intros. unfold run, main.
  cbn [length app Nat.ltb Nat.leb tl].
  change (a :: args1 ++ b :: args2) with ((a :: args1) ++ (b :: args2)).
  rewrite each_arg_app.
  destruct (each_arg world path glob sorted is_file suffix read_text write_text
              (a :: args1) (files world pr)) as [w1|w1];
    reflexivity.
Qed.

(** X9. When every argument expands, and only to paths that [is_file]
    answers for and that are not a regular file with the suffix ".html" (in
    any case), [main] returns with the files and the error stream as they
    were. *)
Theorem main_skips_other_paths :
  forall (world path : Type)
         (glob : pystr -> world -> option (list path))
         (sorted : list path -> list path)
         (is_file : path -> world -> option bool)
         (suffix : path -> pystr)
         (read_text : path -> world -> option pystr)
         (write_text : path -> pystr -> world -> ran world)
         (prog arg : pystr) (args : list pystr) (pr : process world),
    (forall a,
        In a (arg :: args) ->
        exists found,
          glob a (files world pr) = Some found
          /\ forall p,
               In p (sorted found) ->
               wanted world path is_file suffix p (files world pr)
               = Some false) ->
    main world path glob sorted is_file suffix read_text write_text
      (prog :: arg :: args) pr
    = (Returned, pr).
Proof.
  intros world path glob sorted is_file suffix read_text write_text
    prog arg args pr H.
  unfold main. cbn [length Nat.ltb Nat.leb tl].
  rewrite each_arg_settled.
  - now destruct pr.
  - intros a Ha. destruct (H a Ha) as [found [E Hf]]. exists found.
    split; [exact E|]. intros p Hp. rewrite (Hf p Hp).
    split; discriminate.
Qed.

Lemma main_skips_other_paths_witness :
  (forall a,
      In a [str "*"] ->
      exists found,
        glob_two a (str "<P>a</P>", str "<b> x </b>") = Some found
        /\ forall p,
             In p found ->
             wanted two_files bool is_file_two (fun _ => str ".HTM") p
               (str "<P>a</P>", str "<b> x </b>")
             = Some false)
  /\ main two_files bool glob_two (fun ps => ps) is_file_two
       (fun _ => str ".HTM") read_two write_two
       [str "format_html.py"; str "*"]
       (mkProcess two_files (str "<P>a</P>", str "<b> x </b>") [])
     = (Returned, mkProcess two_files (str "<P>a</P>", str "<b> x </b>") []).
Proof.
  assert (H : forall a,
             In a [str "*"] ->
             exists found,
               glob_two a (str "<P>a</P>", str "<b> x </b>") = Some found
               /\ forall p,
                    In p found ->
                    wanted two_files bool is_file_two (fun _ => str ".HTM") p
                      (str "<P>a</P>", str "<b> x </b>")
                    = Some false).
  { intros a [<-|[]]. exists [true; false]. split; reflexivity. }
  split; [exact H|].
  apply (main_skips_other_paths two_files bool glob_two (fun ps => ps)
           is_file_two (fun _ => str ".HTM") read_two write_two).
  exact H.
Defined.

(** X10. Running the script again changes no file.  On a file system where
    a file holds what was written to it, a write changes no other file, a
    write changes neither what a pattern expands to nor which paths are
    regular files, and a write that raises leaves the files as they were, a
    second run of [main] with the same arguments ends in the same outcome
    and the same files as the first; after a run that returned, the second
    run prints nothing either. *)
Theorem main_second_run_changes_nothing :
  forall (world path : Type)
         (glob : pystr -> world -> option (list path))
         (sorted : list path -> list path)
         (is_file : path -> world -> option bool)
         (suffix : path -> pystr)
         (read_text : path -> world -> option pystr)
         (write_text : path -> pystr -> world -> ran world),
    fs_laws world path glob is_file read_text write_text ->
    let run := main world path glob sorted is_file suffix read_text write_text in
    (forall argv pr,
        files world (snd (run argv (snd (run argv pr))))
        = files world (snd (run argv pr)))
    /\ (forall argv pr,
           fst (run argv (snd (run argv pr))) = fst (run argv pr))
    /\ (forall prog arg args pr,
           fst (run (prog :: arg :: args) pr) = Returned ->
           run (prog :: arg :: args) (snd (run (prog :: arg :: args) pr))
           = run (prog :: arg :: args) pr).
Proof.
  intros world path glob sorted is_file suffix read_text write_text laws run.
  assert (Hagain : forall prog arg args pr,
             each_arg world path glob sorted is_file suffix read_text write_text
               (arg :: args) (files world (snd (run (prog :: arg :: args) pr)))
             = each_arg world path glob sorted is_file suffix read_text
                 write_text (arg :: args) (files world pr)).
  { intros prog arg args pr.
    assert (E : files world (snd (run (prog :: arg :: args) pr))
                = left_files world
                    (each_arg world path glob sorted is_file suffix read_text
                       write_text (arg :: args) (files world pr))).
    { unfold run, main. cbn [length Nat.ltb Nat.leb tl].
      destruct (each_arg world path glob sorted is_file suffix read_text
                  write_text (arg :: args) (files world pr)); reflexivity. }
    rewrite E.
    exact (each_arg_again world path glob sorted is_file suffix read_text
             write_text laws (arg :: args) (files world pr)). }
  split; [|split].
  - intros [|prog [|arg args]] pr; [reflexivity | reflexivity |].
    unfold run at 1. unfold main. cbn [length Nat.ltb Nat.leb tl].
    rewrite Hagain. unfold run, main. cbn [length Nat.ltb Nat.leb tl].
    destruct (each_arg world path glob sorted is_file suffix read_text
                write_text (arg :: args) (files world pr)); reflexivity.
  - intros [|prog [|arg args]] pr; [reflexivity | reflexivity |].
    unfold run at 1. unfold main. cbn [length Nat.ltb Nat.leb tl].
    rewrite Hagain. unfold run, main. cbn [length Nat.ltb Nat.leb tl].
    destruct (each_arg world path glob sorted is_file suffix read_text
                write_text (arg :: args) (files world pr)); reflexivity.
  - intros prog arg args pr Hr.
    unfold run at 1. unfold main. cbn [length Nat.ltb Nat.leb tl].
    rewrite Hagain. revert Hr. unfold run, main.
    cbn [length Nat.ltb Nat.leb tl].
    destruct (each_arg world path glob sorted is_file suffix read_text
                write_text (arg :: args) (files world pr));
      [reflexivity | discriminate].
Qed.

Lemma two_files_laws :
  fs_laws two_files bool glob_two is_file_two read_two write_two.
Proof.
  split; [|split; [|split; [|split]]].
  - intros [] s [x y] w' [= <-]; reflexivity.
  - intros [] [] s [x y] w' [= <-]; auto.
  - reflexivity.
  - reflexivity.
  - discriminate.
Qed.

Lemma locked_files_laws :
  fs_laws two_files bool glob_two is_file_two read_two write_locked.
Proof.
  split; [|split; [|split; [|split]]].
  - intros [] s [x y] w' [= <-]; reflexivity.
  - intros [] [] s [x y] w' [= <-]; auto.
  - reflexivity.
  - reflexivity.
  - intros [] s w w' [= <-]; reflexivity.
Qed.

Lemma main_second_run_changes_nothing_witness :
  fs_laws two_files bool glob_two is_file_two read_two write_two
  /\ fs_laws two_files bool glob_two is_file_two read_two write_locked
  /\ (let run := main two_files bool glob_two (fun ps => ps) is_file_two
                   (fun _ => str ".HTML") read_two write_two in
      let argv := [str "format_html.py"; str "*"] in
      let pr := mkProcess two_files (str "<P>a</P>", str "<b> x </b>") [] in
      files two_files (snd (run argv pr))
      = (str "<p>" ++ [nl] ++ str "  a" ++ [nl] ++ str "</p>",
         str "<b>" ++ [nl] ++ str "  x" ++ [nl] ++ str "</b>")
      /\ fst (run argv pr) = Returned
      /\ run argv (snd (run argv pr)) = run argv pr)
  /\ (let run := main two_files bool glob_two (fun ps => ps) is_file_two
                   (fun _ => str ".HTML") read_two write_locked in
      let argv := [str "format_html.py"; str "*"] in
      let pr := mkProcess two_files (str "<P>a</P>", str "<b> x </b>") [] in
      files two_files (snd (run argv pr))
      = (str "<p>" ++ [nl] ++ str "  a" ++ [nl] ++ str "</p>", str "<b> x </b>")
      /\ fst (run argv pr) = Uncaught
      /\ files two_files (snd (run argv (snd (run argv pr))))
         = files two_files (snd (run argv pr))
      /\ fst (run argv (snd (run argv pr))) = fst (run argv pr)).
Proof.
  split; [exact two_files_laws|]. split; [exact locked_files_laws|]. split.
  - split; [reflexivity|]. split; [reflexivity|].
    apply (proj2 (proj2 (main_second_run_changes_nothing two_files bool glob_two
                           (fun ps => ps) is_file_two (fun _ => str ".HTML")
                           read_two write_two two_files_laws))).
    reflexivity.
  - split; [reflexivity|]. split; [reflexivity|]. split.
    + apply (proj1 (main_second_run_changes_nothing two_files bool glob_two
                      (fun ps => ps) is_file_two (fun _ => str ".HTML")
                      read_two write_locked locked_files_laws)).
    + apply (proj1 (proj2 (main_second_run_changes_nothing two_files bool
                             glob_two (fun ps => ps) is_file_two
                             (fun _ => str ".HTML") read_two write_locked
                             locked_files_laws))).
Defined.
